(** * Client-side session recording: frame throttling and the stop protocol

  Shallow embedding of [sessionRecordingService.js]
  (guacamole/src/main/webapp/app/client/services).

  The service keeps, per [Recording] object, the timestamp of the last
  frame written to the GIF in two clock domains (the session's and the
  local one), drops frames that follow the last one by less than
  [MINIMUM_FRAME_DELAY] milliseconds, and on [stopRecording] detaches both
  frame triggers and hands back a promise for the rendered GIF.

  Numbers.  Every JavaScript Number that reaches the service is [NaN], an
  infinity or an integer-valued double: [new Date().getTime()] is an
  integer, the timestamp of a sync instruction comes out of [parseInt]
  (an integer, [NaN], or an infinity for a digit string beyond the range of
  doubles), and sums and differences of integer-valued doubles are
  integer-valued doubles again.  So a finite Number is embedded as the
  integer it denotes, [Num z], with [-0] identified with [0] (both are
  falsy and behave alike under [+], [-] and [<]), and [+] and [-] round
  their exact result to the nearest double, ties to even, as IEEE 754
  does.  Statements quantified over [z : Z] cover the doubles among them. *)

From stdpp Require Import gmap list.

(** ** JavaScript values that reach the service *)

Module JS.

Inductive value : Type :=
| Null
| Undefined
| NaN
| Num (z : Z)
| Infinity (negative : bool).

#[global] Instance value_eq_dec : EqDecision value.
Proof. solve_decision. Defined.

(** ToBoolean: [null], [undefined], [NaN] and [0] are falsy. *)
Definition truthy (v : value) : bool :=
  match v with
  | Num z => negb (z =? 0)%Z
  | Infinity _ => true
  | _ => false
  end.

(** ToNumber: [null] is [0], [undefined] is [NaN]. *)
Definition to_number (v : value) : value :=
  match v with
  | Null => Num 0
  | Undefined => NaN
  | _ => v
  end.

(** The double nearest to the integer [z]: [z] itself below [2^53];
    beyond, the 53 leading bits of [|z|] rounded to nearest, ties to even;
    an infinity when that reaches [2^1024]. *)
Definition round_double (z : Z) : value :=
  let a := Z.abs z in
  if (a <? 2 ^ 53)%Z then Num z
  else
    let e := (Z.log2 a - 52)%Z in
    let q := Z.shiftr a e in
    let rest := Z.land a (Z.ones e) in
    let half := Z.shiftl 1 (e - 1) in
    let q' := if (half <? rest)%Z || ((rest =? half)%Z && Z.odd q)
              then (q + 1)%Z else q in
    let m := Z.shiftl q' e in
    if (2 ^ 1024 <=? m)%Z then Infinity (z <? 0)%Z else Num (Z.sgn z * m).

(** [a + b] on Numbers: [Infinity + -Infinity] is [NaN]. *)
Definition add (a b : value) : value :=
  match to_number a, to_number b with
  | Num x, Num y => round_double (x + y)
  | Infinity s, Num _ => Infinity s
  | Num _, Infinity s => Infinity s
  | Infinity s1, Infinity s2 => if Bool.eqb s1 s2 then Infinity s1 else NaN
  | _, _ => NaN
  end.

(** [a - b] on Numbers: [Infinity - Infinity] is [NaN]. *)
Definition sub (a b : value) : value :=
  match to_number a, to_number b with
  | Num x, Num y => round_double (x - y)
  | Infinity s, Num _ => Infinity s
  | Num _, Infinity s => Infinity (negb s)
  | Infinity s1, Infinity s2 => if Bool.eqb s1 s2 then NaN else Infinity s1
  | _, _ => NaN
  end.

(** [a < b]: false as soon as one side is [NaN]. *)
Definition lt (a b : value) : bool :=
  match to_number a, to_number b with
  | Num x, Num y => (x <? y)%Z
  | Infinity true, Num _ => true
  | Num _, Infinity false => true
  | Infinity true, Infinity false => true
  | _, _ => false
  end.

End JS.

Import JS.

(** ** The Recording object *)

Definition ClientId := nat.
Definition RecordingId := nat.
Definition TimerId := nat.
Definition PromiseId := nat.

(** [var MINIMUM_FRAME_DELAY = 20;] *)
Definition MINIMUM_FRAME_DELAY : Z := 20.

Section Recording.

Context {Canvas : Type}.

(** One call [gif.addFrame(canvas, { delay : frameDelay })]. *)
Record Frame : Type := mkFrame {
  frame_canvas : Canvas;
  frame_delay : value
}.

(** Modelled from the spec: the encoder (gif.js, an external collaborator)
    accepts [addFrame(bitmap, delay)], a render trigger, and emits one
    completion notification per render to the handlers registered with
    [on('finished', ...)].  A handler of this service is the closure
    [recordingComplete], identified by the deferred it resolves. *)
Record GIF : Type := mkGIF {
  gif_frames : list Frame;
  gif_finished : list PromiseId;
  gif_running : bool
}.

Definition GIF_new : GIF :=
  {| gif_frames := []; gif_finished := []; gif_running := false |}.

Definition GIF_addFrame (canvas : Canvas) (delay : value) (g : GIF) : GIF :=
  {| gif_frames := gif_frames g ++ [mkFrame canvas delay];
     gif_finished := gif_finished g;
     gif_running := gif_running g |}.

Definition GIF_on_finished (p : PromiseId) (g : GIF) : GIF :=
  {| gif_frames := gif_frames g;
     gif_finished := gif_finished g ++ [p];
     gif_running := gif_running g |}.

Definition GIF_render (g : GIF) : GIF :=
  {| gif_frames := gif_frames g;
     gif_finished := gif_finished g;
     gif_running := true |}.

(** The state of the encoder once it has reported the end of a render. *)
Definition GIF_done (g : GIF) : GIF :=
  {| gif_frames := gif_frames g;
     gif_finished := gif_finished g;
     gif_running := false |}.

(** The closure variables [lastFrameTimestamp] and
    [lastFrameLocalTimestamp] and the fields [client], [gif] and
    [mouseCheckInterval] of a [Recording]. *)
Record Recording : Type := mkRecording {
  lastFrameTimestamp : value;
  lastFrameLocalTimestamp : value;
  client : ClientId;
  gif : GIF;
  mouseCheckInterval : option TimerId
}.

(** [new Recording(client)] *)
Definition Recording_new (c : ClientId) : Recording :=
  {| lastFrameTimestamp := Null;
     lastFrameLocalTimestamp := Null;
     client := c;
     gif := GIF_new;
     mouseCheckInterval := None |}.

(** [recording.mouseCheckInterval = id] *)
Definition set_mouseCheckInterval (id : option TimerId) (r : Recording)
    : Recording :=
  {| lastFrameTimestamp := lastFrameTimestamp r;
     lastFrameLocalTimestamp := lastFrameLocalTimestamp r;
     client := client r;
     gif := gif r;
     mouseCheckInterval := id |}.

(** Lines 132-135: the value of [timestamp] after
    [if (!timestamp) timestamp = localTimestamp + lastFrameTimestamp
                               - lastFrameLocalTimestamp;]. *)
Definition derive_timestamp (localTimestamp timestamp : value)
    (r : Recording) : value :=
  if negb (truthy timestamp)
  then sub (add localTimestamp (lastFrameTimestamp r))
           (lastFrameLocalTimestamp r)
  else timestamp.

(** Lines 146-156: flatten the display, write the frame, record both
    timestamps. *)
Definition write_frame (canvas : Canvas)
    (frameDelay timestamp localTimestamp : value) (r : Recording) : Recording :=
  {| lastFrameTimestamp := timestamp;
     lastFrameLocalTimestamp := localTimestamp;
     client := client r;
     gif := GIF_addFrame canvas frameDelay (gif r);
     mouseCheckInterval := mouseCheckInterval r |}.

(** [Recording.addFrame(guac, timestamp)].  [now] is the value of
    [new Date().getTime()] at the call and [canvas] what
    [guac.getDisplay().flatten()] yields then; an omitted [timestamp] is
    [Undefined].  The early [return] leaves the object as it was. *)
Definition addFrame (now : Z) (canvas : Canvas) (timestamp : value)
    (r : Recording) : Recording :=
  let localTimestamp := Num now in
  let frameDelay := Num 0 in
  if truthy (lastFrameTimestamp r) then
    let timestamp := derive_timestamp localTimestamp timestamp r in
    let frameDelay := sub timestamp (lastFrameTimestamp r) in
    if lt frameDelay (Num MINIMUM_FRAME_DELAY) then r
    else write_frame canvas frameDelay timestamp localTimestamp r
  else write_frame canvas frameDelay timestamp localTimestamp r.

(** A call of [addFrame] as the environment issues it. *)
Record Call : Type := mkCall {
  call_now : Z;
  call_canvas : Canvas;
  call_timestamp : value
}.

Definition addFrame_call (r : Recording) (c : Call) : Recording :=
  addFrame (call_now c) (call_canvas c) (call_timestamp c) r.

(** A sequence of calls on one recording, oldest first. *)
Definition addFrames (calls : list Call) (r : Recording) : Recording :=
  foldl addFrame_call r calls.

(** The delays handed to the encoder so far. *)
Definition delays (r : Recording) : list value :=
  map frame_delay (gif_frames (gif r)).

(** What one call did, read off the encoder's frame list: the frame it
    submitted, if any. *)
Definition submitted (before after : Recording) : list Frame :=
  drop (length (gif_frames (gif before))) (gif_frames (gif after)).

(** The part of a recording that [addFrame] reads and writes. *)
Definition frame_state (r : Recording) : value * value * list Frame :=
  (lastFrameTimestamp r, lastFrameLocalTimestamp r, gif_frames (gif r)).

(** The part of a recording that the completion of a render reads: the
    registered handlers and whether a render is under way. *)
Definition encoder_state (r : Recording) : list PromiseId * bool :=
  (gif_finished (gif r), gif_running (gif r)).

(** Line 138: the delay [addFrame] computes against the last frame.  The
    assignment sits inside [if (lastFrameTimestamp)], so there is none when
    that test fails. *)
Definition computed_delay (now : Z) (timestamp : value) (r : Recording)
    : option value :=
  if truthy (lastFrameTimestamp r)
  then Some (sub (derive_timestamp (Num now) timestamp r) (lastFrameTimestamp r))
  else None.

(** A timestamp variable holds a number (it is "present") or not. *)
Definition is_number (v : value) : bool :=
  match v with
  | Num _ => true
  | Infinity _ => true
  | _ => false
  end.

(** Both timestamps of the recording present, or both absent. *)
Definition paired (r : Recording) : bool :=
  eqb (is_number (lastFrameTimestamp r)) (is_number (lastFrameLocalTimestamp r)).

(** Two recordings that no sequence of [addFrame] calls tells apart: they
    agree everywhere except, possibly, on which falsy value
    [lastFrameTimestamp] holds. *)
Definition alike (r1 r2 : Recording) : Prop :=
  gif r1 = gif r2 ∧
  lastFrameLocalTimestamp r1 = lastFrameLocalTimestamp r2 ∧
  client r1 = client r2 ∧
  mouseCheckInterval r1 = mouseCheckInterval r2 ∧
  (lastFrameTimestamp r1 = lastFrameTimestamp r2 ∨
   (truthy (lastFrameTimestamp r1) = false ∧
    truthy (lastFrameTimestamp r2) = false)).

(** Integers of magnitude at most [2^50].  Local times and session
    timestamps in milliseconds are far inside this range, and as long as
    the inputs of [addFrame] are, every sum and difference it forms stays
    below [2^53] and is exact. *)
Definition in_range (z : Z) : bool := (Z.abs z <=? 2 ^ 50)%Z.

(** A timestamp argument that is in range, or no usable number at all
    ([undefined], [null], [NaN]); an infinity is neither. *)
Definition in_range_value (v : value) : bool :=
  match v with
  | Num z => in_range z
  | Infinity _ => false
  | _ => true
  end.

Definition in_range_call (k : Call) : bool :=
  in_range (call_now k) && in_range_value (call_timestamp k).

(** The state [addFrame] keeps while its inputs are in range: a truthy
    [lastFrameTimestamp] is a finite number, the local timestamp is in
    range and the two clocks are at most [2^51] apart. *)
Definition tracking (r : Recording) : Prop :=
  truthy (lastFrameTimestamp r) = true →
  ∃ l w, lastFrameTimestamp r = Num l ∧ lastFrameLocalTimestamp r = Num w ∧
         (Z.abs w ≤ 2 ^ 50)%Z ∧ (Z.abs (l - w) ≤ 2 ^ 51)%Z.

(** Every delay written so far is a number that is [0] or at least the
    minimum. *)
Definition throttled (r : Recording) : Prop :=
  (truthy (lastFrameTimestamp r) = true →
   ∃ w, lastFrameLocalTimestamp r = Num w) ∧
  Forall (λ v, ∃ d, v = Num d ∧ (d = 0 ∨ MINIMUM_FRAME_DELAY ≤ d)%Z) (delays r).

(** A delay that [addFrame] can write whatever its inputs: the [0] of the
    path without previous frame, or a Number that the comparison with the
    minimum did not find smaller. *)
Definition written_delay (v : value) : Prop :=
  v = Num 0 ∨ v = NaN ∨ v = Infinity false ∨
  ∃ d, v = Num d ∧ (MINIMUM_FRAME_DELAY ≤ d)%Z.

(** The playing time of the animation written so far: the sum of the
    finite delays handed to the encoder, in milliseconds. *)
Definition total_delay (r : Recording) : Z :=
  foldr (λ v acc, (match v with Num d => d | _ => 0 end + acc)%Z) 0%Z (delays r).

(** The recording follows the session clock started at [t0]: the last
    timestamp is a positive number that lies [total_delay] after [t0], the
    frames after the first are at least the minimum delay apart, and the
    state is in range. *)
Definition on_session_clock (t0 : Z) (r : Recording) : Prop :=
  ∃ l w, lastFrameTimestamp r = Num l ∧ lastFrameLocalTimestamp r = Num w ∧
         (0 < l)%Z ∧ l = (t0 + total_delay r)%Z ∧
         (MINIMUM_FRAME_DELAY * (Z.of_nat (length (gif_frames (gif r))) - 1)
          ≤ l - t0)%Z ∧
         (Z.abs w ≤ 2 ^ 50)%Z ∧ (Z.abs (l - w) ≤ 2 ^ 51)%Z.

(** What holds of a recording that only the service has touched, whatever
    the timestamps: while it has no frame both timestamps are still [null];
    once it has one the local timestamp is a finite number; its first frame
    carries delay [0]; and every delay is a [written_delay]. *)
Definition settled (r : Recording) : Prop :=
  Forall written_delay (delays r) ∧
  (gif_frames (gif r) = [] →
   lastFrameTimestamp r = Null ∧ lastFrameLocalTimestamp r = Null) ∧
  (gif_frames (gif r) ≠ [] → ∃ t, lastFrameLocalTimestamp r = Num t) ∧
  (∀ f fs, gif_frames (gif r) = f :: fs → frame_delay f = Num 0).

End Recording.

Arguments Frame : clear implicits.
Arguments GIF : clear implicits.
Arguments Recording : clear implicits.
Arguments Call : clear implicits.

(** ** The service and its collaborators *)

Section Service.

Context {Canvas Blob : Type}.

(** The closure [writeFrame] installed as [guac.onsync]: it captures the
    recording and the Guacamole client of [startRecording]. *)
Inductive SyncHandler : Type :=
| writeFrame (recording : RecordingId) (guac : ClientId).

(** Modelled from the spec: the display/session source (Guacamole.Client and
    its display, which live outside this service) exposes the current
    rendered bitmap on demand, a subscribable frame-synchronised
    notification carrying a session-relative timestamp, and readable
    cursor coordinates.  A ManagedClient and the Guacamole client it wraps
    are one object here. *)
Record Client : Type := mkClient {
  onsync : option SyncHandler;
  cursorX : Z;
  cursorY : Z;
  flatten : Canvas
}.

(** The closure [checkMouse] given to [window.setInterval]: it captures
    the recording, the client whose display it reads, and the variables
    [x] and [y]. *)
Record Timer : Type := checkMouse {
  cm_recording : RecordingId;
  cm_guac : ClientId;
  cm_x : Z;
  cm_y : Z
}.

(** A [$q] deferred: pending, or resolved with the blob. *)
Inductive Promise : Type :=
| Pending
| Resolved (blob : Blob).

(** Everything the service can reach: the clients, the heap of Recording
    objects, the window's interval table and the deferreds, with the next
    free identifier of each allocator. *)
Record World : Type := mkWorld {
  clients : gmap ClientId Client;
  recordings : gmap RecordingId (Recording Canvas);
  timers : gmap TimerId Timer;
  promises : gmap PromiseId Promise;
  next_recording : RecordingId;
  next_timer : TimerId;
  next_promise : PromiseId
}.

Definition set_onsync (h : option SyncHandler) (cl : Client) : Client :=
  {| onsync := h; cursorX := cursorX cl; cursorY := cursorY cl;
     flatten := flatten cl |}.

Definition set_recordings (rs : gmap RecordingId (Recording Canvas))
    (w : World) : World :=
  {| clients := clients w; recordings := rs; timers := timers w;
     promises := promises w; next_recording := next_recording w;
     next_timer := next_timer w; next_promise := next_promise w |}.

Definition set_timers (ts : gmap TimerId Timer) (w : World) : World :=
  {| clients := clients w; recordings := recordings w; timers := ts;
     promises := promises w; next_recording := next_recording w;
     next_timer := next_timer w; next_promise := next_promise w |}.

Definition set_clients (cs : gmap ClientId Client) (w : World) : World :=
  {| clients := cs; recordings := recordings w; timers := timers w;
     promises := promises w; next_recording := next_recording w;
     next_timer := next_timer w; next_promise := next_promise w |}.

Definition set_promises (ps : gmap PromiseId Promise) (w : World) : World :=
  {| clients := clients w; recordings := recordings w; timers := timers w;
     promises := ps; next_recording := next_recording w;
     next_timer := next_timer w; next_promise := next_promise w |}.

(** No recording has been started: no client has a sync handler. *)
Definition initial_world (cs : gmap ClientId Client) : World :=
  {| clients := set_onsync None <$> cs; recordings := ∅; timers := ∅;
     promises := ∅; next_recording := 0; next_timer := 0;
     next_promise := 0 |}.

(** [recording.addFrame(guac, timestamp)] on the heap. *)
Definition call_addFrame (r : RecordingId) (guac : ClientId)
    (timestamp : value) (now : Z) (w : World) : World :=
  match recordings w !! r, clients w !! guac with
  | Some rec, Some cl =>
      set_recordings
        (<[r := addFrame now (flatten cl) timestamp rec]> (recordings w)) w
  | _, _ => w
  end.

(** [service.startRecording(client)]: [None] when the client does not
    exist (the JavaScript dereference throws). *)
Definition startRecording (c : ClientId) (w : World)
    : option (World * RecordingId) :=
  match clients w !! c with
  | None => None
  | Some cl =>
      let r := next_recording w in
      let t := next_timer w in
      let rec :=
        {| lastFrameTimestamp := Null;
           lastFrameLocalTimestamp := Null;
           client := c;
           gif := GIF_new;
           mouseCheckInterval := Some t |} in
      Some ({| clients := <[c := set_onsync (Some (writeFrame r c)) cl]> (clients w);
               recordings := <[r := rec]> (recordings w);
               timers := <[t := checkMouse r c (cursorX cl) (cursorY cl)]> (timers w);
               promises := promises w;
               next_recording := S r;
               next_timer := S t;
               next_promise := next_promise w |}, r)
  end.

(** [window.clearInterval(id)]; [null] clears nothing. *)
Definition clearInterval (id : option TimerId) (ts : gmap TimerId Timer)
    : gmap TimerId Timer :=
  match id with
  | Some t => delete t ts
  | None => ts
  end.

Definition set_gif (g : GIF Canvas) (r : Recording Canvas) : Recording Canvas :=
  {| lastFrameTimestamp := lastFrameTimestamp r;
     lastFrameLocalTimestamp := lastFrameLocalTimestamp r;
     client := client r;
     gif := g;
     mouseCheckInterval := mouseCheckInterval r |}.

(** [service.stopRecording(recording)], returning the world it leaves and
    the promise of the deferred it created. *)
Definition stopRecording (r : RecordingId) (w : World)
    : option (World * PromiseId) :=
  match recordings w !! r with
  | None => None
  | Some rec =>
      match clients w !! client rec with
      | None => None
      | Some cl =>
          let renderingProcess := next_promise w in
          Some ({| clients := <[client rec := set_onsync None cl]> (clients w);
                   recordings :=
                     <[r := set_gif (GIF_render
                               (GIF_on_finished renderingProcess (gif rec))) rec]>
                       (recordings w);
                   timers := clearInterval (mouseCheckInterval rec) (timers w);
                   promises := <[renderingProcess := Pending]> (promises w);
                   next_recording := next_recording w;
                   next_timer := next_timer w;
                   next_promise := S renderingProcess |}, renderingProcess)
      end
  end.

(** [renderingProcess.resolve(blob)]: a deferred of [$q] is settled by the
    first [resolve]; later ones are ignored. *)
Definition resolve (blob : Blob) (ps : gmap PromiseId Promise)
    (p : PromiseId) : gmap PromiseId Promise :=
  match ps !! p with
  | Some Pending => <[p := Resolved blob]> ps
  | _ => ps
  end.

(** What can happen between two calls of the service.  The event loop runs
    one callback to completion before the next. *)
Inductive Event : Type :=
| Sync (c : ClientId) (timestamp : value) (now : Z)
| Tick (t : TimerId) (now : Z)
| Redraw (c : ClientId) (x y : Z) (screen : Canvas)
| Finished (r : RecordingId) (blob : Blob)
| Start (c : ClientId)
| Stop (r : RecordingId).

(** Modelled from the spec: the frame-synchronised notification of the
    session source (the sync instruction handler of Guacamole.Client, outside
    this service) calls the handler installed at that moment with the
    instruction's timestamp, and does nothing when there is none. *)
Definition on_sync (c : ClientId) (timestamp : value) (now : Z)
    (w : World) : World :=
  match clients w !! c with
  | Some cl =>
      match onsync cl with
      | Some (writeFrame r guac) => call_addFrame r guac timestamp now w
      | None => w
      end
  | None => w
  end.

(** The body of [checkMouse], run when interval [t] of the window fires; a
    cleared interval does not fire.  [x] and [y] are updated whether or not
    [addFrame] wrote a frame. *)
Definition on_tick (t : TimerId) (now : Z) (w : World) : World :=
  match timers w !! t with
  | Some tm =>
      match clients w !! cm_guac tm with
      | Some display =>
          if negb (cm_x tm =? cursorX display)%Z
             || negb (cm_y tm =? cursorY display)%Z
          then
            let w' := call_addFrame (cm_recording tm) (cm_guac tm) Undefined now w in
            set_timers
              (<[t := checkMouse (cm_recording tm) (cm_guac tm)
                        (cursorX display) (cursorY display)]> (timers w')) w'
          else w
      | None => w
      end
  | None => w
  end.

Definition on_redraw (c : ClientId) (x y : Z) (screen : Canvas)
    (w : World) : World :=
  match clients w !! c with
  | Some cl =>
      set_clients
        (<[c := {| onsync := onsync cl; cursorX := x; cursorY := y;
                   flatten := screen |}]> (clients w)) w
  | None => w
  end.

(** Modelled from the spec: the encoder of recording [r] completes the
    render it was asked for and emits its completion notification: every
    registered handler runs with the blob, in registration order.  An
    encoder that is not rendering emits nothing. *)
Definition on_finished (r : RecordingId) (blob : Blob) (w : World) : World :=
  match recordings w !! r with
  | Some rec =>
      if gif_running (gif rec) then
        {| clients := clients w;
           recordings :=
             <[r := set_gif {| gif_frames := gif_frames (gif rec);
                               gif_finished := gif_finished (gif rec);
                               gif_running := false |} rec]> (recordings w);
           timers := timers w;
           promises := foldl (resolve blob) (promises w) (gif_finished (gif rec));
           next_recording := next_recording w;
           next_timer := next_timer w;
           next_promise := next_promise w |}
      else w
  | None => w
  end.

Definition step (w : World) (e : Event) : World :=
  match e with
  | Sync c timestamp now => on_sync c timestamp now w
  | Tick t now => on_tick t now w
  | Redraw c x y screen => on_redraw c x y screen w
  | Finished r blob => on_finished r blob w
  | Start c => from_option fst w (startRecording c w)
  | Stop r => from_option fst w (stopRecording r w)
  end.

Definition run (w : World) (evs : list Event) : World := foldl step w evs.

(** The blob of the first completion the encoder of [r] reports in [evs]. *)
Fixpoint first_finished (r : RecordingId) (evs : list Event) : option Blob :=
  match evs with
  | [] => None
  | Finished r' blob :: evs' =>
      if decide (r' = r) then Some blob else first_finished r evs'
  | _ :: evs' => first_finished r evs'
  end.

(** No trigger reaches recording [r]: no client's sync handler and no live
    interval refers to it. *)
Definition detached (r : RecordingId) (w : World) : Prop :=
  (∀ c cl r' g, clients w !! c = Some cl →
     onsync cl = Some (writeFrame r' g) → r' ≠ r) ∧
  (∀ t tm, timers w !! t = Some tm → cm_recording tm ≠ r).

(** The deferred [p] returned by [stopRecording r] is still waiting for
    the encoder: the render is under way, the handler resolving [p] is
    registered with the encoder of [r] and with no other. *)
Definition awaiting (r : RecordingId) (p : PromiseId) (w : World) : Prop :=
  (∃ hs, encoder_state <$> recordings w !! r = Some (hs, true) ∧ p ∈ hs) ∧
  promises w !! p = Some Pending ∧
  (∀ r' hs b, r' ≠ r →
     encoder_state <$> recordings w !! r' = Some (hs, b) → p ∉ hs).

(** Shape of the worlds the service builds. *)
Record wf (w : World) : Prop := mk_wf {
  wf_recordings : ∀ r rec, recordings w !! r = Some rec → r < next_recording w;
  wf_onsync : ∀ c cl r g, clients w !! c = Some cl →
    onsync cl = Some (writeFrame r g) →
    g = c ∧ ∃ rec, recordings w !! r = Some rec ∧ client rec = c;
  wf_timers : ∀ t tm, timers w !! t = Some tm →
    t < next_timer w ∧
    ∃ rec, recordings w !! cm_recording tm = Some rec ∧
           mouseCheckInterval rec = Some t;
  wf_handlers : ∀ r rec p, recordings w !! r = Some rec →
    p ∈ gif_finished (gif rec) → p < next_promise w;
  wf_promises : ∀ p st, promises w !! p = Some st → p < next_promise w
}.

(** What event [e] can do to a recording that exists: nothing, the call of
    [addFrame] that a sync or a tick makes, or an update of its encoder that
    keeps the frames. *)
Inductive touched (e : Event) (rec : Recording Canvas)
    : Recording Canvas → Prop :=
| touched_same : touched e rec rec
| touched_sync c ts now canvas :
    e = Sync c ts now → touched e rec (addFrame now canvas ts rec)
| touched_tick t now canvas :
    e = Tick t now → touched e rec (addFrame now canvas Undefined rec)
| touched_gif g :
    gif_frames g = gif_frames (gif rec) → touched e rec (set_gif g rec).

(** An event whose local time and timestamp are in range. *)
Definition in_range_event (e : Event) : bool :=
  match e with
  | Sync _ timestamp now => in_range now && in_range_value timestamp
  | Tick _ now => in_range now
  | _ => true
  end.

(** Each interval identifier stored in a recording was handed out by
    [setInterval], and while that interval is live its callback refers to
    this recording and to no other. *)
Definition intervals_owned (w : World) : Prop :=
  ∀ r rec t, recordings w !! r = Some rec → mouseCheckInterval rec = Some t →
    t < next_timer w ∧
    ∀ tm, timers w !! t = Some tm → cm_recording tm = r.

End Service.

Arguments Client : clear implicits.
Arguments World : clear implicits.
Arguments Event : clear implicits.
Arguments Promise : clear implicits.

(** ** Properties of [addFrame] *)

Section AddFrameProperties.

Context {Canvas : Type}.
Implicit Types (r : Recording Canvas) (c : Canvas) (ts : value) (now : Z).

(** *** Rounding *)

Lemma round_double_exact z : (Z.abs z < 2 ^ 53)%Z → round_double z = Num z.
Proof.
  intros H. unfold round_double.
  by destruct (Z.ltb_spec (Z.abs z) (2 ^ 53)); [|lia].
Qed.

Lemma round_double_shape z :
  (∃ d, round_double z = Num d) ∨ (∃ s, round_double z = Infinity s).
Proof.
  unfold round_double. destruct (_ <? _)%Z; [by eauto|].
  destruct (_ <=? _)%Z; by eauto.
Qed.

(** The double nearest to an integer that is not positive is not positive
    either. *)
Lemma round_double_nonpos z :
  (z ≤ 0)%Z → lt (round_double z) (Num MINIMUM_FRAME_DELAY) = true.
Proof.
  intros Hz. unfold round_double, MINIMUM_FRAME_DELAY.
  destruct (Z.ltb_spec (Z.abs z) (2 ^ 53)) as [_|Hbig].
  { simpl. apply Z.ltb_lt. lia. }
  assert (z < 0)%Z as Hneg by lia.
  destruct (_ <=? _)%Z.
  - destruct (Z.ltb_spec z 0); [done|lia].
  - cbn [lt to_number]. apply Z.ltb_lt.
    set (e := (Z.log2 (Z.abs z) - 52)%Z).
    set (q := Z.shiftr (Z.abs z) e).
    assert (0 ≤ q)%Z by (apply Z.shiftr_nonneg; lia).
    match goal with
    | |- (Z.sgn z * Z.shiftl ?q' e < 20)%Z =>
        assert (0 ≤ Z.shiftl q' e)%Z
    end.
    { apply Z.shiftl_nonneg. destruct (_ || _); lia. }
    rewrite Z.sgn_neg by done. lia.
Qed.

Lemma sub_shape a b :
  sub a b = NaN ∨ (∃ d, sub a b = Num d) ∨ (∃ s, sub a b = Infinity s).
Proof.
  unfold sub.
  destruct (to_number a) as [| | |x|s1], (to_number b) as [| | |y|s2];
    try (by left); try (right; right; by eexists).
  - destruct (round_double_shape (x - y)) as [?|?]; by eauto.
  - destruct (Bool.eqb s1 s2); [by left|right; right; by eexists].
Qed.

Lemma in_range_le z : in_range z = true ↔ (Z.abs z ≤ 2 ^ 50)%Z.
Proof. unfold in_range. apply Z.leb_le. Qed.

(** *** Values *)

Lemma truthy_cases ts :
  truthy ts = true → (∃ z, ts = Num z ∧ z ≠ 0%Z) ∨ (∃ s, ts = Infinity s).
Proof.
  destruct ts as [| | |z|s]; simpl; try discriminate; [|by eauto].
  intros H. left. exists z. split; [done|]. intros ->. discriminate.
Qed.

Lemma truthy_in_range ts :
  truthy ts = true → in_range_value ts = true →
  ∃ z, ts = Num z ∧ z ≠ 0%Z ∧ (Z.abs z ≤ 2 ^ 50)%Z.
Proof.
  intros [(z & -> & Hz)|[s ->]]%truthy_cases; simpl; [|done].
  intros H%in_range_le. by exists z.
Qed.

Lemma submitted_write_frame c d ts lt0 r :
  submitted r (write_frame c d ts lt0 r) = [mkFrame c d].
Proof. unfold submitted. simpl. by rewrite drop_app_length. Qed.

Lemma submitted_same r : submitted r r = [].
Proof. unfold submitted. by rewrite drop_all. Qed.

(** [addFrame] by the delay it computes. *)
Lemma addFrame_unfold now c ts r :
  addFrame now c ts r =
  match computed_delay now ts r with
  | Some d =>
      if lt d (Num MINIMUM_FRAME_DELAY) then r
      else write_frame c d (derive_timestamp (Num now) ts r) (Num now) r
  | None => write_frame c (Num 0) ts (Num now) r
  end.
Proof. unfold addFrame, computed_delay. by destruct (truthy _). Qed.

Lemma addFrame_falsy now c ts r :
  truthy (lastFrameTimestamp r) = false →
  addFrame now c ts r = write_frame c (Num 0) ts (Num now) r.
Proof. intros H. unfold addFrame. by rewrite H. Qed.

(** The first call on a new recording writes a frame with delay 0 and
    stores the timestamp exactly as it was passed. *)
Lemma addFrame_first now c ts cl :
  addFrame now c ts (Recording_new cl)
  = write_frame c (Num 0) ts (Num now) (Recording_new cl).
Proof. reflexivity. Qed.

(** The early return: when a delay is computed against the last frame and
    is below the minimum, the recording is returned as it was. *)
Lemma addFrame_below_minimum now c ts r d :
  computed_delay now ts r = Some d →
  lt d (Num MINIMUM_FRAME_DELAY) = true →
  addFrame now c ts r = r.
Proof. intros Hd Hlt. rewrite addFrame_unfold, Hd. by rewrite Hlt. Qed.

(** With a nonzero recorded timestamp and a nonzero supplied one, the delay
    is their difference, exactly so while it is below [2^53]. *)
Lemma computed_delay_supplied now t l r :
  lastFrameTimestamp r = Num l → l ≠ 0%Z → t ≠ 0%Z →
  computed_delay now (Num t) r = Some (round_double (t - l)) ∧
  ((Z.abs (t - l) < 2 ^ 53)%Z →
   computed_delay now (Num t) r = Some (Num (t - l))).
Proof.
  intros Hl Hl0 Ht0.
  assert (computed_delay now (Num t) r = Some (round_double (t - l))) as E.
  { unfold computed_delay, derive_timestamp. rewrite Hl. simpl.
    destruct (Z.eqb_spec l 0); [done|]. by destruct (Z.eqb_spec t 0). }
  split; [done|]. intros Hb. by rewrite E, round_double_exact.
Qed.

(** With a recorded timestamp and no usable one supplied, the timestamp is
    projected from the local clock, exactly so while the sums stay below
    [2^53]. *)
Lemma derive_timestamp_omitted now ts l w r :
  truthy ts = false →
  lastFrameTimestamp r = Num l → lastFrameLocalTimestamp r = Num w →
  (Z.abs (now + l) < 2 ^ 53)%Z → (Z.abs (now + l - w) < 2 ^ 53)%Z →
  derive_timestamp (Num now) ts r = Num (now + l - w).
Proof.
  intros Hts Hl Hw H1 H2. unfold derive_timestamp. rewrite Hts, Hl, Hw.
  unfold add, sub. simpl. rewrite (round_double_exact _ H1). simpl.
  by rewrite (round_double_exact _ H2).
Qed.

(** An out-of-order nonzero timestamp after a nonzero one is dropped,
    however large the numbers. *)
Lemma addFrame_out_of_order now c t l r :
  lastFrameTimestamp r = Num l → l ≠ 0%Z → t ≠ 0%Z → (t ≤ l)%Z →
  addFrame now c (Num t) r = r.
Proof.
  intros Hl Hl0 Ht0 Hle.
  destruct (computed_delay_supplied now t l r Hl Hl0 Ht0) as [E _].
  apply (addFrame_below_minimum _ _ _ _ _ E), round_double_nonpos. lia.
Qed.

(** *** Inputs in range *)

(** While the state and the inputs are in range, the timestamp used and
    the delay are finite and exact. *)
Lemma in_range_step now ts r l w :
  lastFrameTimestamp r = Num l → l ≠ 0%Z →
  lastFrameLocalTimestamp r = Num w →
  (Z.abs w ≤ 2 ^ 50)%Z → (Z.abs (l - w) ≤ 2 ^ 51)%Z →
  in_range now = true → in_range_value ts = true →
  ∃ t, derive_timestamp (Num now) ts r = Num t ∧
       computed_delay now ts r = Some (Num (t - l)) ∧
       (Z.abs (t - now) ≤ 2 ^ 51)%Z ∧
       (truthy ts = false → t = (now + l - w)%Z) ∧
       (truthy ts = true → ts = Num t).
Proof.
  intros El Hl0 Ew Hw Hoff Hnow%in_range_le Hts.
  assert (truthy (lastFrameTimestamp r) = true) as Htl.
  { rewrite El. simpl. by destruct (Z.eqb_spec l 0). }
  destruct (truthy ts) eqn:Et.
  - destruct (truthy_in_range ts Et Hts) as (t & -> & Ht0 & Ht).
    exists t. unfold computed_delay, derive_timestamp. rewrite Htl, Et, El.
    simpl. unfold sub. simpl. rewrite round_double_exact by lia.
    repeat split; try done. lia.
  - exists (now + l - w)%Z.
    assert (derive_timestamp (Num now) ts r = Num (now + l - w)) as Ed
      by (apply derive_timestamp_omitted; (done || lia)).
    unfold computed_delay. rewrite Htl, Ed, El. unfold sub. simpl.
    rewrite round_double_exact by lia.
    repeat split; try done. lia.
Qed.

Lemma tracking_new cl : tracking (Recording_new (Canvas:=Canvas) cl).
Proof. intros H. discriminate. Qed.

Lemma tracking_addFrame now c ts r :
  in_range now = true → in_range_value ts = true →
  tracking r → tracking (addFrame now c ts r).
Proof.
  intros Hnow Hts Hr. rewrite addFrame_unfold. unfold computed_delay.
  destruct (truthy (lastFrameTimestamp r)) eqn:Htl.
  - destruct (Hr Htl) as (l & w & El & Ew & Hw & Hoff).
    assert (l ≠ 0%Z) as Hl0.
    { intros ->. rewrite El in Htl. discriminate. }
    destruct (in_range_step now ts r l w El Hl0 Ew Hw Hoff Hnow Hts)
      as (t & Ed & Ec & Ht & _).
    unfold computed_delay in Ec. rewrite Htl in Ec. injection Ec as ->.
    destruct (lt _ _); [done|]. intros _. exists t, now. rewrite Ed.
    apply in_range_le in Hnow. done.
  - intros Ht. simpl in Ht.
    destruct (truthy_in_range ts Ht Hts) as (t & -> & _ & Hb).
    exists t, now. apply in_range_le in Hnow. repeat split; try done. lia.
Qed.

Lemma throttled_new cl : throttled (Recording_new (Canvas:=Canvas) cl).
Proof. split; [discriminate|constructor]. Qed.

Lemma throttled_addFrame now c ts r :
  in_range now = true → in_range_value ts = true →
  tracking r → throttled r → throttled (addFrame now c ts r).
Proof.
  intros Hnow Hts Htr Hr. pose proof Hr as [Hw Hd].
  rewrite addFrame_unfold. unfold computed_delay.
  destruct (truthy (lastFrameTimestamp r)) eqn:Htl.
  - destruct (Htr Htl) as (l & w & El & Ew & Hwb & Hoff).
    assert (l ≠ 0%Z) as Hl0.
    { intros ->. rewrite El in Htl. discriminate. }
    destruct (in_range_step now ts r l w El Hl0 Ew Hwb Hoff Hnow Hts)
      as (t & Ed & Ec & _).
    unfold computed_delay in Ec. rewrite Htl in Ec. injection Ec as ->.
    unfold lt, MINIMUM_FRAME_DELAY. simpl.
    destruct (Z.ltb_spec (t - l) 20); [exact Hr|].
    split; [by eexists|]. unfold delays. simpl. rewrite map_app.
    apply Forall_app. split; [exact Hd|]. repeat constructor.
    exists (t - l)%Z. unfold MINIMUM_FRAME_DELAY. split; [done|lia].
  - split; [by eexists|]. unfold delays. simpl. rewrite map_app.
    apply Forall_app. split; [exact Hd|]. repeat constructor.
    exists 0%Z. auto.
Qed.

(** However sync-triggered and cursor-triggered calls interleave, while
    their local times and timestamps are in range every delay written is
    0 or at least the minimum. *)
Lemma throttled_addFrames calls cl :
  forallb in_range_call calls = true →
  throttled (addFrames calls (Recording_new (Canvas:=Canvas) cl)).
Proof.
  unfold addFrames. generalize (throttled_new cl) (tracking_new cl).
  generalize (Recording_new (Canvas:=Canvas) cl).
  induction calls as [|k calls IH]; intros r Hr Htr Hcalls; simpl; [done|].
  simpl in Hcalls. apply andb_prop in Hcalls as [Hk Hcalls].
  apply andb_prop in Hk as [Hnow Hts].
  apply IH; [by apply throttled_addFrame|by apply tracking_addFrame|done].
Qed.

(** *** Any inputs *)

(** Whatever the inputs, infinities included, a delay that [addFrame]
    writes is the 0 of the path without previous frame or a Number that is
    not below the minimum; it is never negative. *)
Lemma written_addFrame now c ts r :
  Forall written_delay (delays r) →
  Forall written_delay (delays (addFrame now c ts r)).
Proof.
  intros Hd. rewrite addFrame_unfold. unfold computed_delay.
  destruct (truthy (lastFrameTimestamp r)).
  - destruct (lt _ _) eqn:Hlt; [done|].
    unfold delays. simpl. rewrite map_app.
    apply Forall_app. split; [exact Hd|]. apply Forall_singleton. simpl.
    destruct (sub_shape (derive_timestamp (Num now) ts r) (lastFrameTimestamp r))
      as [E|[[d E]|[s E]]]; rewrite E in *; unfold written_delay.
    + by eauto.
    + right. right. right. exists d. split; [done|].
      unfold lt, MINIMUM_FRAME_DELAY in *. simpl in Hlt.
      by destruct (Z.ltb_spec d 20); [|lia].
    + destruct s; [done|by eauto].
  - unfold delays. simpl. rewrite map_app.
    apply Forall_app. split; [exact Hd|]. apply Forall_singleton. by left.
Qed.

Lemma written_addFrames calls cl :
  Forall written_delay
    (delays (addFrames calls (Recording_new (Canvas:=Canvas) cl))).
Proof.
  unfold addFrames.
  assert (Forall written_delay (delays (Recording_new (Canvas:=Canvas) cl)))
    as H by constructor.
  revert H. generalize (Recording_new (Canvas:=Canvas) cl).
  induction calls as [|k calls IH]; intros r Hr; simpl; [done|].
  apply IH. by apply written_addFrame.
Qed.

(** After a frame with a positive timestamp, and while state and inputs are
    in range, the throttle works as documented: a call is dropped, or it
    writes a frame whose delay is the distance from the last timestamp to
    the new one and is at least the minimum; the new timestamp is positive
    again. *)
Lemma addFrame_positive now c ts r l w :
  lastFrameTimestamp r = Num l → (0 < l)%Z →
  lastFrameLocalTimestamp r = Num w →
  (Z.abs w ≤ 2 ^ 50)%Z → (Z.abs (l - w) ≤ 2 ^ 51)%Z →
  in_range now = true → in_range_value ts = true →
  addFrame now c ts r = r ∨
  ∃ d, (MINIMUM_FRAME_DELAY ≤ d)%Z ∧
       (Z.abs (l + d - now) ≤ 2 ^ 51)%Z ∧
       computed_delay now ts r = Some (Num d) ∧
       addFrame now c ts r = write_frame c (Num d) (Num (l + d)) (Num now) r.
Proof.
  intros El Hl Ew Hw Hoff Hnow Hts. rewrite addFrame_unfold.
  destruct (in_range_step now ts r l w El ltac:(lia) Ew Hw Hoff Hnow Hts)
    as (t & Ed & Ec & Ht & _).
  rewrite Ec, Ed. unfold lt, MINIMUM_FRAME_DELAY. simpl.
  destruct (Z.ltb_spec (t - l) 20); [by left|]. right.
  exists (t - l)%Z. replace (l + (t - l))%Z with t by lia. done.
Qed.

(** *** The number model on three traces *)

(** Beyond [2^53] the projection rounds: with the last frame at session
    time [2^53] and local time 3, a cursor call at local time 1000 forms
    [2^53 + 997], a tie that rounds to even, and the frame carries delay
    996. *)
Example projection_rounds_to_even c0 c cl :
  let r := write_frame c0 (Num 0) (Num 9007199254740992) (Num 3)
             (Recording_new cl) in
  addFrame 1000 c Undefined r
  = write_frame c (Num 996) (Num 9007199254741988) (Num 1000) r.
Proof. reflexivity. Qed.

(** A timestamp of [2^54 + 4] after timestamp 1: the delay is the rounded
    difference, [2^54 + 4] again. *)
Example large_timestamp_delay now1 now2 c1 c2 cl :
  submitted (addFrame now1 c1 (Num 1) (Recording_new cl))
    (addFrame now2 c2 (Num 18014398509481988)
       (addFrame now1 c1 (Num 1) (Recording_new cl)))
  = [mkFrame c2 (Num 18014398509481988)].
Proof. reflexivity. Qed.

(** After a sync whose timestamp is [Infinity], a call without timestamp
    projects [Infinity], computes the delay [Infinity - Infinity = NaN],
    which is not below the minimum, and the frame is written. *)
Example infinite_timestamp_unthrottles now1 now2 now3 c1 c2 c3 cl :
  let r1 := addFrame now1 c1 (Num 100) (Recording_new cl) in
  let r2 := addFrame now2 c2 (Infinity false) r1 in
  let r3 := addFrame now3 c3 Undefined r2 in
  submitted r1 r2 = [mkFrame c2 (Infinity false)] ∧
  submitted r2 r3 = [mkFrame c3 NaN] ∧
  lastFrameTimestamp r3 = Infinity false.
Proof. repeat split. Qed.

Lemma alike_refl r : alike r r.
Proof. unfold alike. repeat split; by left. Qed.

Lemma alike_addFrame now c ts r1 r2 :
  alike r1 r2 → alike (addFrame now c ts r1) (addFrame now c ts r2).
Proof.
  intros (Hg & Hw & Hc & Hm & [Hl | [Hf1 Hf2]]).
  - assert (r1 = r2) as ->; [|apply alike_refl].
    destruct r1, r2; simpl in *; congruence.
  - rewrite !addFrame_falsy by done. unfold alike, write_frame. simpl.
    rewrite Hg, Hc, Hm. repeat split; by left.
Qed.

Lemma alike_addFrames calls r1 r2 :
  alike r1 r2 → alike (addFrames calls r1) (addFrames calls r2).
Proof.
  unfold addFrames. revert r1 r2.
  induction calls as [|k calls IH]; intros r1 r2 H; simpl; [done|].
  apply IH. by apply alike_addFrame.
Qed.

End AddFrameProperties.

(** ** The frame scheduler against its specification *)

Section Scheduler.

Context {Canvas : Type}.
Implicit Types (r : Recording Canvas) (c : Canvas) (ts : value) (now : Z).

(** C1.  The calls with session timestamps 0, 10 and 25 on a new recording:
    the first writes a frame with delay 0 and records timestamp 0; that 0
    fails the test [if (lastFrameTimestamp)], so the second call also writes
    a frame with delay 0; the third is then 15 ms after the second and is
    dropped.  The encoder receives the delays 0 and 0, not 0 and 25. *)
Theorem scenario_0_10_25 now1 now2 now3 c1 c2 c3 cl :
  let r0 := Recording_new cl in
  let r1 := addFrame now1 c1 (Num 0) r0 in
  let r2 := addFrame now2 c2 (Num 10) r1 in
  let r3 := addFrame now3 c3 (Num 25) r2 in
  submitted r0 r1 = [mkFrame c1 (Num 0)] ∧
  submitted r1 r2 = [mkFrame c2 (Num 0)] ∧
  submitted r2 r3 = [] ∧
  delays (addFrames [mkCall now1 c1 (Num 0); mkCall now2 c2 (Num 10);
                     mkCall now3 c3 (Num 25)] r0) = [Num 0; Num 0].
Proof. repeat split. Qed.

(** C2.  Two frames written one after the other with timestamps 0 and 10:
    the delay attached to the second is 0, which is neither the difference
    of the timestamps nor at least [MINIMUM_FRAME_DELAY]. *)
Theorem delay_after_timestamp_zero now1 now2 c1 c2 cl :
  let r1 := addFrame now1 c1 (Num 0) (Recording_new cl) in
  let r2 := addFrame now2 c2 (Num 10) r1 in
  lastFrameTimestamp r1 = Num 0 ∧
  lastFrameTimestamp r2 = Num 10 ∧
  submitted r1 r2 = [mkFrame c2 (Num 0)] ∧
  lt (Num 0) (Num MINIMUM_FRAME_DELAY) = true.
Proof. repeat split. Qed.

(** C3.  The first call on a new recording, with the timestamp omitted:
    the frame is written with delay 0 and the local timestamp is recorded,
    but [lastFrameTimestamp] is left [undefined] instead of receiving the
    current time. *)
Theorem first_frame_without_timestamp now c cl :
  let r := addFrame now c Undefined (Recording_new cl) in
  submitted (Recording_new cl) r = [mkFrame c (Num 0)] ∧
  lastFrameLocalTimestamp r = Num now ∧
  lastFrameTimestamp r = Undefined ∧
  lastFrameTimestamp r ≠ Num now.
Proof. repeat split. discriminate. Qed.

(** C4.  A new recording has both timestamps absent, and after its first
    call, made without a timestamp, it has the local timestamp present and
    the session timestamp absent. *)
Theorem timestamps_unpaired_after_cursor_frame now c cl :
  paired (Recording_new (Canvas:=Canvas) cl) = true ∧
  paired (addFrame now c Undefined (Recording_new cl)) = false.
Proof. split; reflexivity. Qed.

(** C5.  Two calls in a row without a timestamp on a new recording: the
    second call, made after a frame has been written, does not project a
    timestamp from the local clock.  Whatever time has passed it writes a
    frame with delay 0 and leaves [lastFrameTimestamp] undefined. *)
Theorem second_frame_without_timestamp now1 now2 c1 c2 cl :
  let r1 := addFrame now1 c1 Undefined (Recording_new cl) in
  let r2 := addFrame now2 c2 Undefined r1 in
  gif_frames (gif r1) = [mkFrame c1 (Num 0)] ∧
  computed_delay now2 Undefined r1 = None ∧
  submitted r1 r2 = [mkFrame c2 (Num 0)] ∧
  lastFrameTimestamp r2 = Undefined.
Proof. repeat split. Qed.


(** C7.  A call whose timestamp repeats the timestamp 0 of the last frame
    (a delay of zero against it) is not dropped: it writes a frame with
    delay 0.  And a timestamp 0 supplied 50 ms after a frame with timestamp
    100 is not dropped as out of order either: it is replaced by the
    projected timestamp 150 and the frame is written with delay 50. *)
Theorem repeated_zero_timestamp_written now1 now2 c1 c2 c3 cl :
  let r1 := addFrame now1 c1 (Num 0) (Recording_new cl) in
  let r2 := addFrame 1000 c1 (Num 100) (Recording_new cl) in
  submitted r1 (addFrame now2 c2 (Num 0) r1) = [mkFrame c2 (Num 0)] ∧
  submitted r2 (addFrame 1050 c3 (Num 0) r2) = [mkFrame c3 (Num 50)] ∧
  lastFrameTimestamp (addFrame 1050 c3 (Num 0) r2) = Num 150.
Proof. repeat split. Qed.

(** C10.  A timestamp of 0 is handled as an omitted one: the two calls
    leave recordings that agree on everything but the falsy value held by
    [lastFrameTimestamp], and no later sequence of calls tells them apart.
    And a recording whose last frame was written with timestamp 0 takes the
    next call as a new recording does: the frame is written with delay 0,
    whatever the timestamp and the time passed. *)
Theorem zero_timestamp_as_omitted now c r calls c0 d0 w0 now' c' ts' :
  alike (addFrame now c (Num 0) r) (addFrame now c Undefined r) ∧
  gif (addFrames calls (addFrame now c (Num 0) r))
    = gif (addFrames calls (addFrame now c Undefined r)) ∧
  (let r0 := write_frame c0 d0 (Num 0) w0 r in
   addFrame now' c' ts' r0 = write_frame c' (Num 0) ts' (Num now') r0 ∧
   submitted r0 (addFrame now' c' ts' r0) = [mkFrame c' (Num 0)]).
Proof.
  assert (alike (addFrame now c (Num 0) r) (addFrame now c Undefined r)) as Ha.
  { rewrite !addFrame_unfold. unfold computed_delay, derive_timestamp. simpl.
    destruct (truthy (lastFrameTimestamp r)).
    - apply alike_refl.
    - unfold alike. simpl. repeat split. by right. }
  split; [exact Ha|]. split.
  - by destruct (alike_addFrames calls _ _ Ha) as [-> _].
  - simpl. rewrite addFrame_falsy by done. split; [done|].
    apply submitted_write_frame.
Qed.

End Scheduler.

(** ** Properties of the service *)

Section ServiceProperties.

Context {Canvas Blob : Type}.
Implicit Types (w : World Canvas Blob) (e : Event Canvas Blob)
  (rec : Recording Canvas) (r : RecordingId) (p : PromiseId).

(** [addFrame] touches the timestamps and the frame list, nothing else. *)
Lemma addFrame_wiring now (c : Canvas) ts rec :
  client (addFrame now c ts rec) = client rec ∧
  mouseCheckInterval (addFrame now c ts rec) = mouseCheckInterval rec ∧
  gif_finished (gif (addFrame now c ts rec)) = gif_finished (gif rec) ∧
  gif_running (gif (addFrame now c ts rec)) = gif_running (gif rec).
Proof.
  unfold addFrame. destruct (truthy _); [destruct (lt _ _)|]; done.
Qed.

Lemma resolve_lookup (blob : Blob) (ps : gmap PromiseId (Promise Blob)) p q :
  resolve blob ps p !! q =
  if decide (q = p)
  then match ps !! q with Some Pending => Some (Resolved blob) | o => o end
  else ps !! q.
Proof.
  unfold resolve. case_decide as Hq.
  - subst q. destruct (ps !! p) as [[|b]|] eqn:E; [|done..].
    by rewrite lookup_insert_eq.
  - destruct (ps !! p) as [[|b]|] eqn:E; [|done..].
    by rewrite lookup_insert_ne.
Qed.

Lemma resolve_all_lookup (blob : Blob) hs (ps : gmap PromiseId (Promise Blob)) q :
  foldl (resolve blob) ps hs !! q =
  if decide (q ∈ hs)
  then match ps !! q with Some Pending => Some (Resolved blob) | o => o end
  else ps !! q.
Proof.
  revert ps. induction hs as [|h hs IH]; intros ps.
  - rewrite decide_False; [done|]. apply not_elem_of_nil.
  - cbn [foldl]. rewrite IH, resolve_lookup.
    destruct (decide (q ∈ hs)) as [Hin|Hin].
    + rewrite (decide_True (P := q ∈ h :: hs)) by (by right).
      destruct (decide (q = h)); [|done]. by destruct (ps !! q) as [[|b]|].
    + destruct (decide (q = h)) as [->|Hne].
      * by rewrite (decide_True (P := h ∈ h :: hs)) by left.
      * rewrite (decide_False (P := q ∈ h :: hs)); [done|].
        intros [?|?]%elem_of_cons; done.
Qed.

Lemma resolve_all_is_Some (blob : Blob) hs (ps : gmap PromiseId (Promise Blob)) q st :
  foldl (resolve blob) ps hs !! q = Some st → is_Some (ps !! q).
Proof.
  rewrite resolve_all_lookup. case_decide; [|by eauto].
  destruct (ps !! q) as [st'|]; [by eauto|done].
Qed.

Lemma wf_initial cs : wf (initial_world (Canvas:=Canvas) (Blob:=Blob) cs).
Proof.
  split; simpl.
  - intros r rec H. by rewrite lookup_empty in H.
  - intros c cl r g H Hh. rewrite lookup_fmap in H.
    destruct (cs !! c) as [cl0|]; simpl in H; [|done].
    injection H as <-. done.
  - intros t tm H. by rewrite lookup_empty in H.
  - intros r rec p H. by rewrite lookup_empty in H.
  - intros p st H. by rewrite lookup_empty in H.
Qed.

(** Replacing a recording by one with the same client, interval and
    handlers keeps the world well formed. *)
Lemma wf_set_recording w r rec rec' :
  recordings w !! r = Some rec →
  client rec' = client rec →
  mouseCheckInterval rec' = mouseCheckInterval rec →
  gif_finished (gif rec') = gif_finished (gif rec) →
  wf w → wf (set_recordings (<[r := rec']> (recordings w)) w).
Proof.
  intros Hr Hc Hm Hf [W1 W2 W3 W4 W5]. split; simpl.
  - intros r0 rec0. rewrite lookup_insert. case_decide; [subst|]; eauto.
  - intros c cl r0 g Hcl Hh. destruct (W2 c cl r0 g Hcl Hh) as (-> & rec0 & E0 & Ec).
    split; [done|]. destruct (decide (r0 = r)) as [->|Hne].
    + exists rec'. rewrite lookup_insert_eq. split; [done|].
      rewrite Hc. rewrite Hr in E0. by injection E0 as <-.
    + exists rec0. by rewrite lookup_insert_ne.
  - intros t tm Ht. destruct (W3 t tm Ht) as (Hlt & rec0 & E0 & Em).
    split; [done|]. destruct (decide (cm_recording tm = r)) as [Heq|Hne].
    + exists rec'. rewrite Heq in *. rewrite lookup_insert_eq. split; [done|].
      rewrite Hm. rewrite Hr in E0. by injection E0 as <-.
    + exists rec0. by rewrite lookup_insert_ne.
  - intros r0 rec0 p. rewrite lookup_insert. case_decide as Hd.
    + subst r0. intros [= <-]. rewrite Hf. eauto.
    + eauto.
  - exact W5.
Qed.

Lemma wf_call_addFrame r g ts now w :
  wf w → wf (call_addFrame r g ts now w).
Proof.
  intros Hw. unfold call_addFrame.
  destruct (recordings w !! r) as [rec|] eqn:Er; [|done].
  destruct (clients w !! g) as [cl|]; [|done].
  destruct (addFrame_wiring now (flatten cl) ts rec) as (? & ? & ? & ?).
  by eapply wf_set_recording.
Qed.

Lemma clearInterval_lookup id (ts : gmap TimerId Timer) t tm :
  clearInterval id ts !! t = Some tm → ts !! t = Some tm ∧ id ≠ Some t.
Proof.
  destruct id as [t0|]; simpl; [|done].
  rewrite lookup_delete. case_decide as Hd; [done|]. intros H. split; [done|congruence].
Qed.

Lemma wf_startRecording c w w' r :
  startRecording c w = Some (w', r) → wf w → wf w'.
Proof.
  unfold startRecording. destruct (clients w !! c) as [cl|] eqn:Ec; [|done].
  intros [= <- <-] [W1 W2 W3 W4 W5]. split; simpl.
  - intros r0 rec0. rewrite lookup_insert. case_decide as Hd; [subst; lia|].
    intros H%W1. lia.
  - intros c0 cl0 r0 g. rewrite lookup_insert. case_decide as Hc.
    + subst c0. intros [= <-]. simpl. intros [= <- <-]. split; [done|].
      eexists. rewrite lookup_insert_eq. split; [reflexivity|done].
    + intros Hcl Hh. destruct (W2 c0 cl0 r0 g Hcl Hh) as (-> & rec0 & E0 & Ecl).
      split; [done|]. exists rec0. split; [|done].
      rewrite lookup_insert_ne; [done|]. apply W1 in E0. lia.
  - intros t tm. rewrite lookup_insert. case_decide as Ht.
    + subst t. intros [= <-]. simpl. split; [lia|].
      eexists. rewrite lookup_insert_eq. split; [reflexivity|done].
    + intros Htm. destruct (W3 t tm Htm) as (Hlt & rec0 & E0 & Em).
      split; [lia|]. exists rec0. split; [|done].
      rewrite lookup_insert_ne; [done|]. apply W1 in E0. lia.
  - intros r0 rec0 p. rewrite lookup_insert. case_decide.
    + intros [= <-]. simpl. by intros ?%elem_of_nil.
    + eauto.
  - exact W5.
Qed.

Lemma wf_stopRecording r w w' p :
  stopRecording r w = Some (w', p) → wf w → wf w'.
Proof.
  unfold stopRecording. destruct (recordings w !! r) as [rec|] eqn:Er; [|done].
  destruct (clients w !! client rec) as [cl|] eqn:Ec; [|done].
  intros [= <- <-] [W1 W2 W3 W4 W5]. split; simpl.
  - intros r0 rec0. rewrite lookup_insert. case_decide; [subst|]; eauto.
  - intros c0 cl0 r0 g. rewrite lookup_insert. case_decide as Hc.
    + subst c0. by intros [= <-].
    + intros Hcl Hh. destruct (W2 c0 cl0 r0 g Hcl Hh) as (-> & rec0 & E0 & Ecl).
      split; [done|]. rewrite lookup_insert. case_decide as Hr.
      * subst r0. rewrite Er in E0. injection E0 as <-.
        eexists; split; [reflexivity|done].
      * by exists rec0.
  - intros t tm [Htm _]%clearInterval_lookup.
    destruct (W3 t tm Htm) as (Hlt & rec0 & E0 & Em). split; [done|].
    rewrite lookup_insert. case_decide as Hr.
    + rewrite <- Hr in E0. rewrite Er in E0. injection E0 as <-.
      eexists; split; [reflexivity|done].
    + by exists rec0.
  - intros r0 rec0 p0. rewrite lookup_insert. case_decide as Hr.
    + subst r0. intros [= <-]. simpl.
      intros [Hin| ->%list_elem_of_singleton]%elem_of_app; [|lia].
      specialize (W4 r rec p0 Er Hin). lia.
    + intros E0 Hin. specialize (W4 r0 rec0 p0 E0 Hin). lia.
  - intros p0 st. rewrite lookup_insert. case_decide as Hd; [subst; lia|].
    intros H%W5. lia.
Qed.

Lemma wf_set_timer w t tm tm' :
  timers w !! t = Some tm → cm_recording tm' = cm_recording tm →
  wf w → wf (set_timers (<[t := tm']> (timers w)) w).
Proof.
  intros Ht Hr [W1 W2 W3 W4 W5]. split; simpl; [done|done| |done|done].
  intros t0 tm0. rewrite lookup_insert. case_decide as Hd.
  - subst t0. intros [= <-]. rewrite Hr. eauto.
  - eauto.
Qed.

Lemma wf_set_promises w (ps : gmap PromiseId (Promise Blob)) :
  (∀ p st, ps !! p = Some st → is_Some (promises w !! p)) →
  wf w → wf (set_promises ps w).
Proof.
  intros Hps [W1 W2 W3 W4 W5]. split; simpl; [done..|].
  intros p st [st' H']%Hps. eauto.
Qed.

(** [addFrame] on the heap leaves clients, timers and deferreds alone. *)
Lemma call_addFrame_others r g ts now w :
  clients (call_addFrame r g ts now w) = clients w ∧
  timers (call_addFrame r g ts now w) = timers w ∧
  promises (call_addFrame r g ts now w) = promises w ∧
  next_recording (call_addFrame r g ts now w) = next_recording w.
Proof.
  unfold call_addFrame.
  destruct (recordings w !! r); [|done]. by destruct (clients w !! g).
Qed.

Lemma wf_on_tick t now w : wf w → wf (on_tick t now w).
Proof.
  intros Hw. unfold on_tick.
  destruct (timers w !! t) as [tm|] eqn:Et; [|done].
  destruct (clients w !! cm_guac tm) as [display|]; [|done].
  destruct (_ || _); [|done].
  apply (wf_set_timer _ t tm); [|done|by apply wf_call_addFrame].
  destruct (call_addFrame_others (cm_recording tm) (cm_guac tm) Undefined now w)
    as (_ & -> & _). done.
Qed.

Lemma wf_on_sync c ts now w : wf w → wf (on_sync c ts now w).
Proof.
  intros Hw. unfold on_sync. repeat case_match; try done.
  by apply wf_call_addFrame.
Qed.

Lemma wf_on_redraw c x y (screen : Canvas) w :
  wf w → wf (on_redraw (Blob:=Blob) c x y screen w).
Proof.
  intros [W1 W2 W3 W4 W5]. unfold on_redraw.
  destruct (clients w !! c) as [cl|] eqn:Ec; [|done].
  split; simpl; [done| |done..].
  intros c0 cl0 r g. rewrite lookup_insert. case_decide as Hd.
  - subst c0. intros [= <-]. simpl. eauto.
  - eauto.
Qed.

Lemma wf_on_finished r (blob : Blob) w :
  wf w → wf (on_finished (Canvas:=Canvas) r blob w).
Proof.
  intros Hw. unfold on_finished.
  destruct (recordings w !! r) as [rec|] eqn:Er; [|done].
  destruct (gif_running (gif rec)); [|done].
  apply (wf_set_recording
           (set_promises (foldl (resolve blob) (promises w) (gif_finished (gif rec))) w)
           r rec); [done..|].
  apply wf_set_promises; [|done]. intros p st. apply resolve_all_is_Some.
Qed.

Lemma wf_step w e : wf w → wf (step w e).
Proof.
  intros Hw. destruct e as [c ts now|t now|c x y screen|r blob|c|r]; simpl.
  - by apply wf_on_sync.
  - by apply wf_on_tick.
  - by apply wf_on_redraw.
  - by apply wf_on_finished.
  - destruct (startRecording c w) as [[w' r]|] eqn:E; [|done].
    simpl. by eapply wf_startRecording.
  - destruct (stopRecording r w) as [[w' p]|] eqn:E; [|done].
    simpl. by eapply wf_stopRecording.
Qed.

Lemma wf_run w evs : wf w → wf (run w evs).
Proof.
  unfold run. revert w.
  induction evs as [|e evs IH]; intros w Hw; simpl; [done|].
  apply IH. by apply wf_step.
Qed.

Lemma call_addFrame_lookup_ne r g ts now w r0 :
  r0 ≠ r → recordings (call_addFrame r g ts now w) !! r0 = recordings w !! r0.
Proof.
  intros Hne. unfold call_addFrame.
  destruct (recordings w !! r); [|done]. destruct (clients w !! g); [|done].
  simpl. by rewrite lookup_insert_ne.
Qed.

(** A detached recording stays detached whatever happens next. *)
Lemma detached_step r w e :
  wf w → is_Some (recordings w !! r) → detached r w → detached r (step w e).
Proof.
  intros Hw [rec Er] [Hs Ht].
  destruct e as [c ts now|t now|c x y screen|r0 blob|c|r0]; simpl.
  - unfold on_sync. destruct (clients w !! c) as [cl|]; [|done].
    destruct (onsync cl) as [[r1 g]|]; [|done].
    destruct (call_addFrame_others r1 g ts now w) as (Ec & Et & _).
    unfold detached. by rewrite Ec, Et.
  - unfold on_tick. destruct (timers w !! t) as [tm|] eqn:Etm; [|done].
    destruct (clients w !! cm_guac tm) as [display|]; [|done].
    destruct (_ || _); [|done].
    destruct (call_addFrame_others (cm_recording tm) (cm_guac tm) Undefined now w)
      as (Ec & Et & _).
    split; simpl; rewrite ?Ec, ?Et; [done|].
    intros t0 tm0. rewrite lookup_insert. case_decide as Hd; [|by eauto].
    intros [= <-]. simpl. by eapply Ht.
  - unfold on_redraw. destruct (clients w !! c) as [cl|] eqn:Ec; [|done].
    split; simpl; [|done].
    intros c0 cl0 r1 g. rewrite lookup_insert. case_decide as Hd; [|by eauto].
    subst c0. intros [= <-]. simpl. by eapply Hs.
  - unfold on_finished. destruct (recordings w !! r0) as [rec0|]; [|done].
    by destruct (gif_running (gif rec0)).
  - unfold startRecording. destruct (clients w !! c) as [cl|] eqn:Ec; [|done].
    simpl. pose proof (wf_recordings w Hw r rec Er) as Hlt.
    split; simpl.
    + intros c0 cl0 r1 g. rewrite lookup_insert. case_decide as Hd; [|by eauto].
      subst c0. intros [= <-]. simpl. intros [= <- <-]. lia.
    + intros t0 tm0. rewrite lookup_insert. case_decide as Hd; [|by eauto].
      intros [= <-]. simpl. lia.
  - unfold stopRecording. destruct (recordings w !! r0) as [rec0|]; [|done].
    destruct (clients w !! client rec0) as [cl|] eqn:Ec; [|done].
    split; simpl.
    + intros c0 cl0 r1 g. rewrite lookup_insert. case_decide as Hd; [|by eauto].
      subst c0. by intros [= <-].
    + intros t0 tm0 [H0 _]%clearInterval_lookup. by eapply Ht.
Qed.

(** No event changes the timestamps or the frames of a detached
    recording. *)
Lemma detached_step_frame_state r w e :
  wf w → is_Some (recordings w !! r) → detached r w →
  frame_state <$> recordings (step w e) !! r = frame_state <$> recordings w !! r.
Proof.
  intros Hw [rec Er] [Hs Ht].
  destruct e as [c ts now|t now|c x y screen|r0 blob|c|r0]; simpl.
  - unfold on_sync. destruct (clients w !! c) as [cl|] eqn:Ec; [|done].
    destruct (onsync cl) as [[r1 g]|] eqn:Eh; [|done].
    rewrite call_addFrame_lookup_ne; [done|].
    intros ->. by eapply Hs.
  - unfold on_tick. destruct (timers w !! t) as [tm|] eqn:Etm; [|done].
    destruct (clients w !! cm_guac tm) as [display|]; [|done].
    destruct (_ || _); [|done]. simpl.
    rewrite call_addFrame_lookup_ne; [done|].
    intros Heq. by eapply Ht.
  - unfold on_redraw. by destruct (clients w !! c).
  - unfold on_finished. destruct (recordings w !! r0) as [rec0|] eqn:E0; [|done].
    destruct (gif_running (gif rec0)); [|done]. simpl.
    rewrite lookup_insert. case_decide as Hd; [|done].
    subst r0. rewrite Er in E0. injection E0 as <-. by rewrite Er.
  - unfold startRecording. destruct (clients w !! c) as [cl|]; [|done].
    simpl. rewrite lookup_insert_ne; [done|].
    pose proof (wf_recordings w Hw r rec Er). lia.
  - unfold stopRecording. destruct (recordings w !! r0) as [rec0|] eqn:E0; [|done].
    destruct (clients w !! client rec0) as [cl|]; [|done]. simpl.
    rewrite lookup_insert. case_decide as Hd; [|done].
    subst r0. rewrite Er in E0. injection E0 as <-. by rewrite Er.
Qed.

Lemma detached_run r w evs :
  wf w → is_Some (recordings w !! r) → detached r w →
  detached r (run w evs) ∧
  frame_state <$> recordings (run w evs) !! r = frame_state <$> recordings w !! r.
Proof.
  unfold run. revert w.
  induction evs as [|e evs IH]; intros w Hw Hr Hd; simpl; [done|].
  pose proof (detached_step_frame_state r w e Hw Hr Hd) as Hf.
  destruct (IH (step w e)) as [Hd' Hf'].
  - by apply wf_step.
  - destruct Hr as [rec Er]. rewrite Er in Hf.
    destruct (recordings (step w e) !! r); [by eexists|done].
  - by apply detached_step.
  - split; [done|]. by rewrite Hf'.
Qed.

(** [stopRecording] detaches the recording it is given. *)
Lemma stopRecording_detached r w w' p :
  wf w → stopRecording r w = Some (w', p) →
  detached r w' ∧
  frame_state <$> recordings w' !! r = frame_state <$> recordings w !! r ∧
  is_Some (recordings w !! r).
Proof.
  intros [W1 W2 W3 W4 W5]. unfold stopRecording.
  destruct (recordings w !! r) as [rec|] eqn:Er; [|done].
  destruct (clients w !! client rec) as [cl|] eqn:Ec; [|done].
  intros [= <- <-]. split; [split|]; simpl.
  - intros c0 cl0 r1 g. rewrite lookup_insert. case_decide as Hd.
    + subst c0. by intros [= <-].
    + intros Hcl Hh ->. destruct (W2 c0 cl0 r g Hcl Hh) as (_ & rec0 & E0 & Ecl).
      rewrite Er in E0. injection E0 as <-. done.
  - intros t tm [Htm Hid]%clearInterval_lookup Heq.
    destruct (W3 t tm Htm) as (_ & rec0 & E0 & Em).
    rewrite Heq, Er in E0. injection E0 as <-. done.
  - rewrite lookup_insert_eq. split; [done|]. by eexists.
Qed.

Lemma call_addFrame_encoder_state r g ts now w r0 :
  encoder_state <$> recordings (call_addFrame r g ts now w) !! r0
  = encoder_state <$> recordings w !! r0.
Proof.
  unfold call_addFrame.
  destruct (recordings w !! r) as [rec|] eqn:Er; [|done].
  destruct (clients w !! g) as [cl|]; [|done]. simpl.
  rewrite lookup_insert. case_decide as Hd; [|done].
  subst r0. rewrite Er. simpl. unfold encoder_state.
  by destruct (addFrame_wiring now (flatten cl) ts rec) as (_ & _ & -> & ->).
Qed.

Lemma awaiting_ext r p w w' :
  (∀ r0, encoder_state <$> recordings w' !! r0
         = encoder_state <$> recordings w !! r0) →
  promises w' = promises w →
  awaiting r p w → awaiting r p w'.
Proof.
  intros Hr Hp (Hh & Hpend & Ho). unfold awaiting.
  rewrite Hp, Hr. split; [done|]. split; [done|].
  intros r' hs b Hne. rewrite Hr. by apply Ho.
Qed.

(** The deferred that [stopRecording] returns is new and pending. *)
Lemma stopRecording_awaiting r w w' p :
  wf w → stopRecording r w = Some (w', p) →
  promises w !! p = None ∧ awaiting r p w'.
Proof.
  intros [W1 W2 W3 W4 W5]. unfold stopRecording.
  destruct (recordings w !! r) as [rec|] eqn:Er; [|done].
  destruct (clients w !! client rec) as [cl|] eqn:Ec; [|done].
  intros [= <- <-].
  assert (promises w !! next_promise w = None) as Hfresh.
  { destruct (promises w !! next_promise w) as [st|] eqn:E; [|done].
    apply W5 in E. lia. }
  split; [done|]. split; [|split]; simpl.
  - rewrite lookup_insert_eq. simpl. eexists. split; [reflexivity|].
    apply elem_of_app. right. by apply list_elem_of_singleton.
  - by rewrite lookup_insert_eq.
  - intros r' hs b Hne. rewrite lookup_insert_ne by done.
    destruct (recordings w !! r') as [rec'|] eqn:E'; [|done].
    intros [= <- _] Hin. specialize (W4 r' rec' _ E' Hin). lia.
Qed.

(** Until the encoder of [r] completes, the deferred keeps waiting. *)
Lemma awaiting_step r p w e :
  wf w → awaiting r p w → (∀ blob, e ≠ Finished r blob) →
  awaiting r p (step w e).
Proof.
  intros Hw Ha Hne.
  destruct e as [c ts now|t now|c x y screen|r0 blob|c|r0]; simpl.
  - unfold on_sync. destruct (clients w !! c) as [cl|]; [|done].
    destruct (onsync cl) as [[r1 g]|]; [|done].
    apply (awaiting_ext r p w); [|by apply call_addFrame_others|done].
    intros r0. apply call_addFrame_encoder_state.
  - unfold on_tick. destruct (timers w !! t) as [tm|]; [|done].
    destruct (clients w !! cm_guac tm) as [display|]; [|done].
    destruct (_ || _); [|done].
    apply (awaiting_ext r p w); simpl; [|by apply call_addFrame_others|done].
    intros r0. apply call_addFrame_encoder_state.
  - unfold on_redraw. by destruct (clients w !! c).
  - assert (r0 ≠ r) as Hr0 by (intros Heq; subst r0; exact (Hne blob eq_refl)).
    pose proof Ha as ((hs & Hh & Hin) & Hpend & Ho).
    unfold on_finished. destruct (recordings w !! r0) as [rec0|] eqn:E0; [|done].
    destruct (gif_running (gif rec0)) eqn:Erun; [|done].
    split; [|split]; simpl.
    + rewrite lookup_insert_ne by done. eauto.
    + rewrite resolve_all_lookup. rewrite decide_False; [done|].
      apply (Ho r0 _ true Hr0). rewrite E0. simpl. unfold encoder_state.
      by rewrite Erun.
    + intros r' hs' b Hr'. rewrite lookup_insert. case_decide as Hd.
      * subst r'. simpl. intros [= <- _]. simpl.
        apply (Ho r0 _ true Hr0). rewrite E0. simpl. unfold encoder_state.
        by rewrite Erun.
      * by apply Ho.
  - pose proof Ha as ((hs & Hh & Hin) & Hpend & Ho).
    unfold startRecording. destruct (clients w !! c) as [cl|]; [|done]. simpl.
    assert (r ≠ next_recording w) as Hfresh.
    { destruct (recordings w !! r) as [rec|] eqn:Er; [|done].
      pose proof (wf_recordings w Hw r rec Er). lia. }
    split; [|split]; simpl.
    + rewrite lookup_insert_ne by done. eauto.
    + done.
    + intros r' hs' b Hr'. rewrite lookup_insert. case_decide as Hd.
      * simpl. intros [= <- _]. apply not_elem_of_nil.
      * by apply Ho.
  - pose proof Ha as ((hs & Hh & Hin) & Hpend & Ho).
    unfold stopRecording. destruct (recordings w !! r0) as [rec0|] eqn:E0; [|done].
    destruct (clients w !! client rec0) as [cl|]; [|done]. simpl.
    assert (p ≠ next_promise w) as Hp.
    { pose proof (wf_promises w Hw p _ Hpend). lia. }
    split; [|split]; simpl.
    + rewrite lookup_insert. case_decide as Hd.
      * subst r0. rewrite E0 in Hh. simpl in Hh. injection Hh as <- _.
        simpl. eexists. split; [reflexivity|]. apply elem_of_app. by left.
      * eauto.
    + by rewrite lookup_insert_ne.
    + intros r' hs' b Hr'. rewrite lookup_insert. case_decide as Hd.
      * subst r'. simpl. intros [= <- _].
        intros [Hin'| ->%list_elem_of_singleton]%elem_of_app; [|done].
        eapply (Ho r0); [done| |exact Hin']. by rewrite E0.
      * by apply Ho.
Qed.

(** The completion of the render resolves the waiting deferred with the
    blob it carries. *)
Lemma awaiting_finished r p w (blob : Blob) :
  awaiting r p w →
  promises (step w (Finished r blob)) !! p = Some (Resolved blob).
Proof.
  intros ((hs & Hh & Hin) & Hpend & _). simpl. unfold on_finished.
  destruct (recordings w !! r) as [rec|] eqn:Er; [|done].
  simpl in Hh. injection Hh as <- ->. simpl.
  rewrite resolve_all_lookup, decide_True by done. by rewrite Hpend.
Qed.

(** A resolved deferred keeps its blob. *)
Lemma resolved_step p w e (blob : Blob) :
  wf w → promises w !! p = Some (Resolved blob) →
  promises (step w e) !! p = Some (Resolved blob).
Proof.
  intros Hw Hp.
  destruct e as [c ts now|t now|c x y screen|r0 blob0|c|r0]; simpl.
  - unfold on_sync. destruct (clients w !! c) as [cl|]; [|done].
    destruct (onsync cl) as [[r1 g]|]; [|done].
    by destruct (call_addFrame_others r1 g ts now w) as (_ & _ & -> & _).
  - unfold on_tick. destruct (timers w !! t) as [tm|]; [|done].
    destruct (clients w !! cm_guac tm) as [display|]; [|done].
    destruct (_ || _); [|done]. simpl.
    by destruct (call_addFrame_others (cm_recording tm) (cm_guac tm) Undefined now w)
      as (_ & _ & -> & _).
  - unfold on_redraw. by destruct (clients w !! c).
  - unfold on_finished. destruct (recordings w !! r0) as [rec0|]; [|done].
    destruct (gif_running (gif rec0)); [|done]. simpl.
    rewrite resolve_all_lookup, Hp. by case_decide.
  - unfold startRecording. by destruct (clients w !! c).
  - unfold stopRecording. destruct (recordings w !! r0) as [rec0|]; [|done].
    destruct (clients w !! client rec0) as [cl|]; [|done]. simpl.
    rewrite lookup_insert_ne; [done|].
    pose proof (wf_promises w Hw p _ Hp). lia.
Qed.

Lemma resolved_run p w evs (blob : Blob) :
  wf w → promises w !! p = Some (Resolved blob) →
  promises (run w evs) !! p = Some (Resolved blob).
Proof.
  unfold run. revert w.
  induction evs as [|e evs IH]; intros w Hw Hp; simpl; [done|].
  apply IH; [by apply wf_step|by apply resolved_step].
Qed.

Lemma awaiting_run r p w evs :
  wf w → awaiting r p w →
  promises (run w evs) !! p =
  Some (match first_finished r evs with
        | Some blob => Resolved blob
        | None => Pending
        end).
Proof.
  revert w. induction evs as [|e evs IH]; intros w Hw Ha.
  - simpl. by destruct Ha as (_ & -> & _).
  - change (run w (e :: evs)) with (run (step w e) evs).
    assert ((∃ blob, e = Finished r blob) ∨ (∀ blob, e ≠ Finished r blob))
      as [[blob ->]|Hne].
    { destruct e as [| | |r0 blob| |]; try (right; by intros ?).
      destruct (decide (r0 = r)) as [->|Hr0]; [left; by eexists|].
      right. intros blob' [= ? ?]. done. }
    + simpl first_finished. rewrite decide_True by done.
      apply resolved_run; [by apply wf_step|by apply awaiting_finished].
    + rewrite IH; [|by apply wf_step|by apply awaiting_step].
      destruct e as [| | |r0 blob| |]; try done.
      simpl. rewrite decide_False; [done|]. intros ->. by eapply Hne.
Qed.

End ServiceProperties.

(** ** Stopping a recording against its specification *)

Section StopRecording.

Context {Canvas Blob : Type}.
Implicit Types (w : World Canvas Blob) (evs : list (Event Canvas Blob)).

(** C8.  Once [stopRecording] has returned, no client's sync handler and no
    live interval refers to the recording, and this stays so: whatever
    syncs, interval ticks, display updates, encoder completions and further
    service calls follow, [addFrame] is not called on the recording again,
    its two timestamps keep their values and the encoder receives no
    further frame.  [stopRecording] itself writes no frame either. *)
Theorem stopRecording_detaches cs evs0 r w1 p evs :
  stopRecording r (run (initial_world cs) evs0) = Some (w1, p) →
  detached r w1 ∧
  frame_state <$> recordings w1 !! r
    = frame_state <$> recordings (run (initial_world cs) evs0) !! r ∧
  is_Some (recordings w1 !! r) ∧
  detached r (run w1 evs) ∧
  frame_state <$> recordings (run w1 evs) !! r
    = frame_state <$> recordings w1 !! r.
Proof.
  intros Hstop.
  assert (wf (run (initial_world cs) evs0)) as Hw0
    by apply wf_run, wf_initial.
  pose proof (wf_stopRecording _ _ _ _ Hstop Hw0) as Hw1.
  destruct (stopRecording_detached _ _ _ _ Hw0 Hstop) as (Hd & Hf & [rec Er]).
  assert (is_Some (recordings w1 !! r)) as Hr1.
  { rewrite Er in Hf. destruct (recordings w1 !! r); [by eexists|done]. }
  destruct (detached_run r w1 evs Hw1 Hr1 Hd) as [Hd' Hf'].
  done.
Qed.

(** C9.  The deferred whose promise [stopRecording] returns is new and
    pending when the call returns.  It stays pending until the encoder of
    that recording reports the end of the render, is resolved by that report
    with the blob the report carries, and never changes afterwards: after any
    sequence of events its state is fixed by the first completion in the
    sequence. *)
Theorem stopRecording_promise cs evs0 r w1 p evs :
  stopRecording r (run (initial_world cs) evs0) = Some (w1, p) →
  promises (run (initial_world cs) evs0) !! p = None ∧
  promises w1 !! p = Some Pending ∧
  promises (run w1 evs) !! p =
    Some (match first_finished r evs with
          | Some blob => Resolved blob
          | None => Pending
          end).
Proof.
  intros Hstop.
  assert (wf (run (initial_world cs) evs0)) as Hw0
    by apply wf_run, wf_initial.
  pose proof (wf_stopRecording _ _ _ _ Hstop Hw0) as Hw1.
  destruct (stopRecording_awaiting _ _ _ _ Hw0 Hstop) as [Hfresh Ha].
  split; [done|]. split; [by destruct Ha as (_ & ? & _)|].
  by apply awaiting_run.
Qed.

End StopRecording.

(** Stopping a recording that has written one sync frame and one cursor
    frame; after the stop come a sync, a cursor move, a tick and the end of
    the render. *)
Lemma stopRecording_detaches_witness :
  let cs : gmap ClientId (Client nat) := {[0 := mkClient None 0 0 7]} in
  let evs0 : list (Event nat nat) :=
    [Start 0; Sync 0 (Num 100) 1000; Redraw 0 5 5 8; Tick 0 1030] in
  let evs : list (Event nat nat) :=
    [Sync 0 (Num 200) 1100; Redraw 0 9 9 9; Tick 0 1200; Finished 0 42] in
  ∃ w1 p,
    stopRecording 0 (run (initial_world cs) evs0) = Some (w1, p) ∧
    detached 0 w1 ∧
    frame_state <$> recordings w1 !! 0
      = frame_state <$> recordings (run (initial_world cs) evs0) !! 0 ∧
    is_Some (recordings w1 !! 0) ∧
    detached 0 (run w1 evs) ∧
    frame_state <$> recordings (run w1 evs) !! 0
      = frame_state <$> recordings w1 !! 0.
Proof.
  intros cs evs0 evs. eexists _, _. split; [reflexivity|].
  eapply (stopRecording_detaches cs evs0 0). reflexivity.
Defined.

(** The promise of the same stop, with the encoder reporting the blob 42,
    then a second stop and a second report. *)
Lemma stopRecording_promise_witness :
  let cs : gmap ClientId (Client nat) := {[0 := mkClient None 0 0 7]} in
  let evs0 : list (Event nat nat) :=
    [Start 0; Sync 0 (Num 100) 1000; Redraw 0 5 5 8; Tick 0 1030] in
  let evs : list (Event nat nat) :=
    [Sync 0 (Num 200) 1100; Tick 0 1200; Finished 0 42; Stop 0; Finished 0 43] in
  ∃ w1 p,
    stopRecording 0 (run (initial_world cs) evs0) = Some (w1, p) ∧
    promises (run (initial_world cs) evs0) !! p = None ∧
    promises w1 !! p = Some Pending ∧
    promises (run w1 evs) !! p = Some (Resolved 42).
Proof.
  intros cs evs0 evs. eexists _, _. split; [reflexivity|].
  eapply (stopRecording_promise cs evs0 0). reflexivity.
Defined.

(** ** More on the frame scheduler *)

Section SessionClock.

Context {Canvas : Type}.
Implicit Types (r : Recording Canvas) (c : Canvas) (ts : value) (now : Z).

Lemma total_delay_write_frame c d ts lt0 r :
  total_delay (write_frame c (Num d) ts lt0 r) = (total_delay r + d)%Z.
Proof.
  unfold total_delay, delays. simpl. rewrite map_app, foldr_app. simpl.
  generalize (map frame_delay (gif_frames (gif r))).
  induction l as [|v l IH]; simpl; lia.
Qed.

Lemma on_session_clock_first now c t0 cl :
  (0 < t0)%Z → in_range t0 = true → in_range now = true →
  on_session_clock t0 (addFrame now c (Num t0) (Recording_new cl)).
Proof.
  intros Ht0 Hb%in_range_le Hnow%in_range_le. exists t0, now.
  unfold MINIMUM_FRAME_DELAY.
  repeat split; simpl; try done; unfold total_delay; simpl; lia.
Qed.

Lemma on_session_clock_addFrame t0 now c ts r :
  in_range now = true → in_range_value ts = true →
  on_session_clock t0 r → on_session_clock t0 (addFrame now c ts r).
Proof.
  intros Hnow Hts Hr.
  pose proof Hr as (l & w & El & Ew & Hl & Hsum & Hcap & Hw & Hoff).
  destruct (addFrame_positive now c ts r l w El Hl Ew Hw Hoff Hnow Hts)
    as [->|(d & Hd & Hoff' & _ & ->)]; [done|].
  exists (l + d)%Z, now. rewrite total_delay_write_frame.
  apply in_range_le in Hnow.
  unfold MINIMUM_FRAME_DELAY in *. simpl. rewrite length_app. simpl.
  repeat split; try done; lia.
Qed.

Lemma on_session_clock_addFrames t0 calls r :
  forallb in_range_call calls = true →
  on_session_clock t0 r → on_session_clock t0 (addFrames calls r).
Proof.
  unfold addFrames. revert r.
  induction calls as [|k calls IH]; intros r Hcalls Hr; simpl; [done|].
  simpl in Hcalls. apply andb_prop in Hcalls as [Hk Hcalls].
  apply andb_prop in Hk as [Hnow Hts].
  apply IH; [done|]. by apply on_session_clock_addFrame.
Qed.

(** X1.  Once the first frame of a recording has been written with a
    positive timestamp [t0], and while the local times and timestamps of the
    calls are in range (integers of magnitude at most [2^50], or no usable
    number), whatever calls follow (with a timestamp, with timestamp 0,
    without one), the delays written add up to the session time between the
    first and the last frame written: the animation plays as long as the
    session ran between them. *)
Theorem playing_time_is_session_time now c t0 cl calls :
  (0 < t0)%Z → in_range t0 = true → in_range now = true →
  forallb in_range_call calls = true →
  lastFrameTimestamp (addFrames calls (addFrame now c (Num t0) (Recording_new cl)))
  = Num (t0 + total_delay
                (addFrames calls (addFrame now c (Num t0) (Recording_new cl)))).
Proof.
  intros Ht0 Hb Hnow Hcalls.
  destruct (on_session_clock_addFrames t0 calls _ Hcalls
              (on_session_clock_first now c t0 cl Ht0 Hb Hnow))
    as (l & w & El & _ & _ & Hsum & _).
  by rewrite El, Hsum.
Qed.

(** X2.  Under the same conditions the frame rate is capped: [n] frames
    written span at least [(n - 1) * MINIMUM_FRAME_DELAY] milliseconds of
    session time. *)
Theorem frame_rate_capped now c t0 cl calls :
  (0 < t0)%Z → in_range t0 = true → in_range now = true →
  forallb in_range_call calls = true →
  ∃ l, lastFrameTimestamp
         (addFrames calls (addFrame now c (Num t0) (Recording_new cl))) = Num l ∧
       (MINIMUM_FRAME_DELAY *
          (Z.of_nat (length (gif_frames (gif
             (addFrames calls (addFrame now c (Num t0) (Recording_new cl)))))) - 1)
        ≤ l - t0)%Z.
Proof.
  intros Ht0 Hb Hnow Hcalls.
  destruct (on_session_clock_addFrames t0 calls _ Hcalls
              (on_session_clock_first now c t0 cl Ht0 Hb Hnow))
    as (l & w & El & _ & _ & _ & Hcap & _).
  by exists l.
Qed.

(** X3.  A call without a usable timestamp (omitted, 0, [NaN]) after a
    frame with a nonzero finite timestamp, when the three numbers the code
    forms ([now + last], [now + last - lastLocal] and the delay) are below
    [2^53] in magnitude, is timed by the local clock alone: the delay is the
    local time elapsed since the last frame was written, the call is dropped
    when that is below the minimum, and otherwise the session timestamp
    advances by exactly the same amount, so the offset between the two
    clocks is kept. *)
Theorem cursor_frame_uses_local_clock now c ts r l w :
  lastFrameTimestamp r = Num l → l ≠ 0%Z →
  lastFrameLocalTimestamp r = Num w →
  truthy ts = false →
  (Z.abs (now + l) < 2 ^ 53)%Z → (Z.abs (now + l - w) < 2 ^ 53)%Z →
  (Z.abs (now - w) < 2 ^ 53)%Z →
  computed_delay now ts r = Some (Num (now - w)) ∧
  ((now - w < MINIMUM_FRAME_DELAY)%Z ∧ addFrame now c ts r = r ∨
   (MINIMUM_FRAME_DELAY ≤ now - w)%Z ∧
   addFrame now c ts r
   = write_frame c (Num (now - w)) (Num (now + (l - w))) (Num now) r).
Proof.
  intros El Hl Ew Hts H1 H2 H3.
  pose proof (derive_timestamp_omitted now ts l w r Hts El Ew H1 H2) as Ed.
  assert (computed_delay now ts r = Some (Num (now - w))) as Hd.
  { unfold computed_delay. rewrite Ed, El. simpl.
    destruct (Z.eqb_spec l 0); [done|]. unfold sub. simpl.
    replace (now + l - w - l)%Z with (now - w)%Z by lia.
    by rewrite round_double_exact. }
  split; [done|]. rewrite addFrame_unfold, Hd, Ed.
  unfold lt, MINIMUM_FRAME_DELAY. simpl.
  destruct (Z.ltb_spec (now - w) 20); [by left|]. right.
  split; [done|].
  by replace (now + l - w)%Z with (now + (l - w))%Z by lia.
Qed.

End SessionClock.

(** A sync frame at session time 500, then a burst of calls. *)
Lemma playing_time_is_session_time_witness :
  let calls := [mkCall 1005 2 (Num 510); mkCall 1030 3 Undefined;
                mkCall 1031 4 (Num 0); mkCall 1100 5 (Num 600)] in
  lastFrameTimestamp (addFrames calls (addFrame 1000 1 (Num 500) (Recording_new 0)))
  = Num (500 + total_delay
                 (addFrames calls (addFrame 1000 1 (Num 500) (Recording_new 0)))).
Proof.
  apply (playing_time_is_session_time 1000 1 500 0); [lia|reflexivity..].
Defined.

(** Three frames out of five calls, spanning 100 ms. *)
Lemma frame_rate_capped_witness :
  let calls := [mkCall 1005 2 (Num 510); mkCall 1030 3 Undefined;
                mkCall 1031 4 (Num 0); mkCall 1100 5 (Num 600)] in
  ∃ l, lastFrameTimestamp
         (addFrames calls (addFrame 1000 1 (Num 500) (Recording_new 0))) = Num l ∧
       (MINIMUM_FRAME_DELAY *
          (Z.of_nat (length (gif_frames (gif
             (addFrames calls
                (addFrame 1000 1%nat (Num 500) (Recording_new 0%nat)))))) - 1)
        ≤ l - 500)%Z.
Proof.
  apply (frame_rate_capped 1000 1 500 0); [lia|reflexivity..].
Defined.

(** A cursor frame 30 ms of local time after a sync frame. *)
Lemma cursor_frame_uses_local_clock_witness :
  let r := write_frame 1 (Num 0) (Num 500) (Num 1000) (Recording_new 0) in
  computed_delay 1030 Undefined r = Some (Num (1030 - 1000)) ∧
  ((1030 - 1000 < MINIMUM_FRAME_DELAY)%Z ∧ addFrame 1030 2 Undefined r = r ∨
   (MINIMUM_FRAME_DELAY ≤ 1030 - 1000)%Z ∧
   addFrame 1030 2 Undefined r
   = write_frame 2 (Num (1030 - 1000)) (Num (1030 + (500 - 1000))) (Num 1030) r).
Proof.
  apply (cursor_frame_uses_local_clock 1030 2 Undefined
           (write_frame 1 (Num 0) (Num 500) (Num 1000) (Recording_new 0))
           500 1000); [reflexivity|lia|reflexivity|reflexivity|lia..].
Defined.

(** ** What the service keeps true of every recording *)

Section ServiceInvariants.

Context {Canvas Blob : Type}.
Implicit Types (w : World Canvas Blob) (e : Event Canvas Blob)
  (rec : Recording Canvas) (r : RecordingId) (p : PromiseId).

Lemma addFrame_frames now (c : Canvas) ts rec :
  gif_frames (gif (addFrame now c ts rec)) = gif_frames (gif rec) ∨
  ∃ d, gif_frames (gif (addFrame now c ts rec))
       = gif_frames (gif rec) ++ [mkFrame c d].
Proof.
  rewrite addFrame_unfold. destruct (computed_delay now ts rec) as [d|].
  - destruct (lt d _); [by left|]. right. by exists d.
  - right. by eexists.
Qed.

Lemma touched_wiring e rec rec' :
  touched e rec rec' →
  client rec' = client rec ∧
  mouseCheckInterval rec' = mouseCheckInterval rec ∧
  gif_frames (gif rec) `prefix_of` gif_frames (gif rec') ∧
  length (gif_frames (gif rec')) ≤ S (length (gif_frames (gif rec))).
Proof.
  assert (∀ now c ts,
    client (addFrame now c ts rec) = client rec ∧
    mouseCheckInterval (addFrame now c ts rec) = mouseCheckInterval rec ∧
    gif_frames (gif rec) `prefix_of` gif_frames (gif (addFrame now c ts rec)) ∧
    length (gif_frames (gif (addFrame now c ts rec)))
      ≤ S (length (gif_frames (gif rec)))) as Hframe.
  { intros now c ts. destruct (addFrame_wiring now c ts rec) as (-> & -> & _).
    split; [done|]. split; [done|].
    destruct (addFrame_frames now c ts rec) as [->|[d ->]].
    - split; [done|lia].
    - split; [by apply prefix_app_r|]. rewrite length_app. simpl. lia. }
  intros [|c ts now canvas _|t now canvas _|g Hg]; [|by apply Hframe..|].
  - repeat split; [done|lia].
  - simpl. rewrite Hg. repeat split; [done|lia].
Qed.

Lemma settled_new (c : ClientId) (t : TimerId) :
  settled (set_mouseCheckInterval (Some t) (Recording_new (Canvas:=Canvas) c)).
Proof.
  split; [|split; [|split]]; simpl; try done.
Qed.

Lemma settled_addFrame now (c : Canvas) ts rec :
  settled rec → settled (addFrame now c ts rec).
Proof.
  intros Hs. pose proof Hs as (Hd & Hnil & Hcons & Hfirst).
  pose proof (written_addFrame now c ts rec Hd) as Hd'.
  rewrite addFrame_unfold in *. unfold computed_delay in *.
  destruct (truthy (lastFrameTimestamp rec)) eqn:Hl.
  - destruct (lt _ _); [done|].
    assert (gif_frames (gif rec) ≠ []) as Hne.
    { intros [E _]%Hnil. by rewrite E in Hl. }
    split; [done|]. split; [|split]; simpl.
    + by intros [_ [=]]%app_eq_nil.
    + intros _. by eexists.
    + intros f fs. destruct (gif_frames (gif rec)) as [|f0 fs0] eqn:E; [done|].
      simpl. intros [= <- _]. by eapply Hfirst.
  - split; [done|]. split; [|split]; simpl.
    + by intros [_ [=]]%app_eq_nil.
    + intros _. by eexists.
    + intros f fs. destruct (gif_frames (gif rec)) as [|f0 fs0] eqn:E; simpl.
      * by intros [= <- _].
      * intros [= <- _]. by eapply Hfirst.
Qed.

Lemma settled_touched e rec rec' :
  settled rec → touched e rec rec' → settled rec'.
Proof.
  intros Hs [|c ts now canvas _|t now canvas _|g Hg];
    [done|by apply settled_addFrame..|].
  destruct Hs as (Hd & Hnil & Hcons & Hfirst).
  unfold settled, delays. simpl. rewrite Hg. done.
Qed.

(** While the events are in range, the throttle and the state it relies on
    survive whatever an event does to a recording. *)
Lemma in_range_touched e rec rec' :
  in_range_event e = true →
  throttled rec ∧ tracking rec → touched e rec rec' →
  throttled rec' ∧ tracking rec'.
Proof.
  intros He [Hth Htr] [|c ts now canvas ->|t now canvas ->|g Hg].
  - done.
  - simpl in He. apply andb_prop in He as [Hnow Hts].
    split; [by apply throttled_addFrame|by apply tracking_addFrame].
  - simpl in He.
    split; [by apply throttled_addFrame|by apply tracking_addFrame].
  - destruct Hth as [Hw Hd]. unfold throttled, tracking, delays. simpl.
    rewrite Hg. done.
Qed.

Lemma call_addFrame_lookup r g ts now w r0 :
  recordings (call_addFrame r g ts now w) !! r0 = recordings w !! r0 ∨
  ∃ rec cl, recordings w !! r0 = Some rec ∧
            recordings (call_addFrame r g ts now w) !! r0
            = Some (addFrame now (flatten cl) ts rec).
Proof.
  unfold call_addFrame.
  destruct (recordings w !! r) as [rec|] eqn:Er; [|by left].
  destruct (clients w !! g) as [cl|]; [|by left]. simpl.
  destruct (decide (r0 = r)) as [->|Hne].
  - right. exists rec, cl. by rewrite lookup_insert_eq.
  - left. by rewrite lookup_insert_ne.
Qed.

(** An event leaves every existing recording in place and changes it by at
    most one [addFrame] or an encoder update. *)
Lemma step_touched w e r rec :
  wf w → recordings w !! r = Some rec →
  ∃ rec', recordings (step w e) !! r = Some rec' ∧ touched e rec rec'.
Proof.
  intros Hw Er.
  assert (∀ e' r1 g ts now,
            (∀ canvas, touched e' rec (addFrame now canvas ts rec)) →
            ∃ rec', recordings (call_addFrame r1 g ts now w) !! r = Some rec' ∧
                    touched e' rec rec') as Hcall.
  { intros e' r1 g ts now Hframe.
    destruct (call_addFrame_lookup r1 g ts now w r) as [->|(rec0 & cl & E0 & ->)].
    - exists rec. split; [done|constructor].
    - rewrite Er in E0. injection E0 as <-. eexists. split; [done|apply Hframe]. }
  destruct e as [c ts now|t now|c x y screen|r0 blob|c|r0]; simpl.
  - unfold on_sync. destruct (clients w !! c) as [cl|]; [|by eauto using touched].
    destruct (onsync cl) as [[r1 g]|]; [|by eauto using touched].
    apply Hcall. intros canvas. by eapply touched_sync.
  - unfold on_tick. destruct (timers w !! t) as [tm|]; [|by eauto using touched].
    destruct (clients w !! cm_guac tm) as [display|]; [|by eauto using touched].
    destruct (_ || _); [|by eauto using touched]. simpl.
    apply Hcall. intros canvas. by eapply touched_tick.
  - unfold on_redraw. destruct (clients w !! c); by eauto using touched.
  - unfold on_finished.
    destruct (recordings w !! r0) as [rec0|] eqn:E0; [|by eauto using touched].
    destruct (gif_running (gif rec0)); [|by eauto using touched]. simpl.
    destruct (decide (r = r0)) as [->|Hne].
    + rewrite lookup_insert_eq. rewrite Er in E0. injection E0 as <-.
      eexists. split; [done|]. by apply touched_gif.
    + rewrite lookup_insert_ne by done. eauto using touched.
  - unfold startRecording. destruct (clients w !! c) as [cl|]; [|by eauto using touched].
    simpl. rewrite lookup_insert_ne; [by eauto using touched|].
    pose proof (wf_recordings w Hw r rec Er). lia.
  - unfold stopRecording.
    destruct (recordings w !! r0) as [rec0|] eqn:E0; [|by eauto using touched].
    destruct (clients w !! client rec0) as [cl|]; [|by eauto using touched]. simpl.
    destruct (decide (r = r0)) as [->|Hne].
    + rewrite lookup_insert_eq. rewrite Er in E0. injection E0 as <-.
      eexists. split; [done|]. by apply touched_gif.
    + rewrite lookup_insert_ne by done. eauto using touched.
Qed.

(** Only [startRecording] creates a recording, and it creates it empty. *)
Lemma step_new w e r rec' :
  recordings w !! r = None → recordings (step w e) !! r = Some rec' →
  ∃ c, e = Start c ∧ is_Some (clients w !! c) ∧ r = next_recording w ∧
       rec' = set_mouseCheckInterval (Some (next_timer w)) (Recording_new c).
Proof.
  intros Er.
  assert (∀ r1 g ts now,
            recordings (call_addFrame r1 g ts now w) !! r = Some rec' → False)
    as Hcall.
  { intros r1 g ts now.
    destruct (call_addFrame_lookup r1 g ts now w r) as [->|(rec0 & cl & E0 & _)];
      [by rewrite Er|by rewrite Er in E0]. }
  destruct e as [c ts now|t now|c x y screen|r0 blob|c|r0]; simpl.
  - unfold on_sync. destruct (clients w !! c) as [cl|]; [|by rewrite Er].
    destruct (onsync cl) as [[r1 g]|]; [|by rewrite Er]. by intros ?%Hcall.
  - unfold on_tick. destruct (timers w !! t) as [tm|]; [|by rewrite Er].
    destruct (clients w !! cm_guac tm) as [display|]; [|by rewrite Er].
    destruct (_ || _); [|by rewrite Er]. simpl. by intros ?%Hcall.
  - unfold on_redraw. destruct (clients w !! c); simpl; by rewrite Er.
  - unfold on_finished.
    destruct (recordings w !! r0) as [rec0|] eqn:E0; [|by rewrite Er].
    destruct (gif_running (gif rec0)); [|by rewrite Er]. simpl.
    rewrite lookup_insert_ne; [by rewrite Er|]. intros ->. by rewrite Er in E0.
  - unfold startRecording.
    destruct (clients w !! c) as [cl|] eqn:Ec; simpl; [|by rewrite Er].
    rewrite lookup_insert. case_decide as Hd; [|by rewrite Er].
    intros [= <-]. exists c. by rewrite Ec.
  - unfold stopRecording.
    destruct (recordings w !! r0) as [rec0|] eqn:E0; simpl; [|by rewrite Er].
    destruct (clients w !! client rec0) as [cl|]; simpl; [|by rewrite Er].
    rewrite lookup_insert_ne; [by rewrite Er|]. intros ->. by rewrite Er in E0.
Qed.

Lemma settled_step w e :
  wf w → (∀ r rec, recordings w !! r = Some rec → settled rec) →
  ∀ r rec, recordings (step w e) !! r = Some rec → settled rec.
Proof.
  intros Hw Hall r rec' E'.
  destruct (recordings w !! r) as [rec|] eqn:Er.
  - destruct (step_touched w e r rec Hw Er) as (rec1 & E1 & Ht).
    rewrite E' in E1. injection E1 as <-. eapply settled_touched; eauto.
  - destruct (step_new w e r rec' Er E') as (c & _ & _ & _ & ->).
    apply settled_new.
Qed.

Lemma settled_run cs evs r rec :
  recordings (run (initial_world (Canvas:=Canvas) (Blob:=Blob) cs) evs) !! r
    = Some rec →
  settled rec.
Proof.
  revert r rec. induction evs as [|e evs IH] using rev_ind; intros r rec.
  - simpl. by rewrite lookup_empty.
  - unfold run. rewrite foldl_app. simpl. apply settled_step; [|exact IH].
    apply wf_run, wf_initial.
Qed.

Lemma in_range_step_world w e :
  wf w → in_range_event e = true →
  (∀ r rec, recordings w !! r = Some rec → throttled rec ∧ tracking rec) →
  ∀ r rec, recordings (step w e) !! r = Some rec → throttled rec ∧ tracking rec.
Proof.
  intros Hw He Hall r rec' E'.
  destruct (recordings w !! r) as [rec|] eqn:Er.
  - destruct (step_touched w e r rec Hw Er) as (rec1 & E1 & Ht).
    rewrite E' in E1. injection E1 as <-. eapply in_range_touched; eauto.
  - destruct (step_new w e r rec' Er E') as (c & _ & _ & _ & ->).
    split; [split; [discriminate|constructor]|]. intros H. discriminate.
Qed.

Lemma in_range_run cs evs r rec :
  forallb in_range_event evs = true →
  recordings (run (initial_world (Canvas:=Canvas) (Blob:=Blob) cs) evs) !! r
    = Some rec →
  throttled rec ∧ tracking rec.
Proof.
  revert r rec. induction evs as [|e evs IH] using rev_ind; intros r rec Hevs.
  - simpl. by rewrite lookup_empty.
  - rewrite forallb_app in Hevs. apply andb_prop in Hevs as [Hevs He].
    simpl in He. rewrite andb_true_r in He.
    unfold run. rewrite foldl_app. simpl.
    apply in_range_step_world; [apply wf_run, wf_initial|done|].
    intros r0 rec0. by apply IH.
Qed.

Lemma run_touched w evs r rec :
  wf w → recordings w !! r = Some rec →
  ∃ rec', recordings (run w evs) !! r = Some rec' ∧
          client rec' = client rec ∧
          mouseCheckInterval rec' = mouseCheckInterval rec ∧
          gif_frames (gif rec) `prefix_of` gif_frames (gif rec') ∧
          length (gif_frames (gif rec'))
            ≤ length (gif_frames (gif rec)) + length evs.
Proof.
  revert w rec. induction evs as [|e evs IH]; intros w rec Hw Er.
  - exists rec. repeat split; [done..|simpl; lia].
  - destruct (step_touched w e r rec Hw Er) as (rec1 & E1 & Ht).
    destruct (touched_wiring _ _ _ Ht) as (Hc1 & Hm1 & Hp1 & Hl1).
    destruct (IH (step w e) rec1 (wf_step w e Hw) E1)
      as (rec' & E' & Hc & Hm & Hp & Hl).
    exists rec'. split; [exact E'|]. split; [congruence|]. split; [congruence|].
    split; [by etrans|]. simpl. lia.
Qed.

(** What an event can do to the window's interval table: keep an entry,
    with the recording it refers to, or add the entry of a new recording. *)
Lemma step_timers w e t tm :
  timers (step w e) !! t = Some tm →
  (∃ tm0, timers w !! t = Some tm0 ∧ cm_recording tm0 = cm_recording tm) ∨
  (t = next_timer w ∧ cm_recording tm = next_recording w).
Proof.
  destruct e as [c ts now|t0 now|c x y screen|r0 blob|c|r0]; simpl.
  - unfold on_sync. destruct (clients w !! c) as [cl|]; [|by eauto].
    destruct (onsync cl) as [[r1 g]|]; [|by eauto].
    destruct (call_addFrame_others r1 g ts now w) as (_ & -> & _). eauto.
  - unfold on_tick. destruct (timers w !! t0) as [tm0|] eqn:E0; [|by eauto].
    destruct (clients w !! cm_guac tm0) as [display|]; [|by eauto].
    destruct (_ || _); [|by eauto]. simpl.
    destruct (call_addFrame_others (cm_recording tm0) (cm_guac tm0) Undefined now w)
      as (_ & -> & _).
    rewrite lookup_insert. case_decide as Hd; [|by eauto].
    subst t0. intros [= <-]. left. by exists tm0.
  - unfold on_redraw. destruct (clients w !! c); by eauto.
  - unfold on_finished. destruct (recordings w !! r0) as [rec0|]; [|by eauto].
    destruct (gif_running (gif rec0)); by eauto.
  - unfold startRecording. destruct (clients w !! c) as [cl|]; [|by eauto]. simpl.
    rewrite lookup_insert. case_decide as Hd; [|by eauto].
    subst t. intros [= <-]. by right.
  - unfold stopRecording. destruct (recordings w !! r0) as [rec0|]; [|by eauto].
    destruct (clients w !! client rec0) as [cl|]; [|by eauto]. simpl.
    intros [H0 _]%clearInterval_lookup. eauto.
Qed.

Lemma step_next_timer w e : next_timer w ≤ next_timer (step w e).
Proof.
  destruct e as [c ts now|t0 now|c x y screen|r0 blob|c|r0]; simpl.
  - unfold on_sync, call_addFrame. repeat case_match; simpl; lia.
  - unfold on_tick, call_addFrame. repeat case_match; simpl; lia.
  - unfold on_redraw. repeat case_match; simpl; lia.
  - unfold on_finished. repeat case_match; simpl; lia.
  - unfold startRecording. repeat case_match; simpl; lia.
  - unfold stopRecording. repeat case_match; simpl; lia.
Qed.

Lemma step_start_next_timer w c :
  is_Some (clients w !! c) → next_timer (step w (Start c)) = S (next_timer w).
Proof. intros [cl Ec]. simpl. unfold startRecording. by rewrite Ec. Qed.

Lemma intervals_owned_step w e :
  wf w → intervals_owned w → intervals_owned (step w e).
Proof.
  intros Hw Ho r rec' t E' Hm.
  destruct (recordings w !! r) as [rec|] eqn:Er.
  - destruct (step_touched w e r rec Hw Er) as (rec1 & E1 & Ht).
    rewrite E' in E1. injection E1 as <-.
    destruct (touched_wiring _ _ _ Ht) as (_ & Hm1 & _).
    rewrite Hm1 in Hm. destruct (Ho r rec t Er Hm) as [Hlt Hown].
    pose proof (step_next_timer w e). split; [lia|].
    intros tm [(tm0 & E0 & <-)|[-> _]]%step_timers; [by eapply Hown|lia].
  - destruct (step_new w e r rec' Er E') as (c & -> & Hc & -> & ->).
    simpl in Hm. injection Hm as <-.
    rewrite (step_start_next_timer w c Hc). split; [lia|].
    intros tm [(tm0 & E0 & _)|[_ ?]]%step_timers; [|done].
    destruct (wf_timers w Hw _ _ E0) as [? _]. lia.
Qed.

Lemma intervals_owned_run cs evs :
  intervals_owned (run (initial_world (Canvas:=Canvas) (Blob:=Blob) cs) evs).
Proof.
  induction evs as [|e evs IH] using rev_ind.
  - intros r rec t. simpl. by rewrite lookup_empty.
  - unfold run. rewrite foldl_app. simpl.
    apply intervals_owned_step; [apply wf_run, wf_initial|exact IH].
Qed.

End ServiceInvariants.

(** ** The service as its callers see it *)

Section ServiceBehaviour.

Context {Canvas Blob : Type}.
Implicit Types (w : World Canvas Blob) (e : Event Canvas Blob)
  (rec : Recording Canvas) (r : RecordingId) (p : PromiseId).

(** X4.  Frames handed to the encoder are never taken back: whatever
    happens after a recording exists, it stays in place with the same client
    and interval, the frames it had remain, in order, at the front of its
    frame list, and each event adds at most one frame. *)
Theorem frames_only_grow cs evs0 evs r rec :
  recordings (run (initial_world (Blob:=Blob) cs) evs0) !! r = Some rec →
  ∃ rec', recordings (run (run (initial_world cs) evs0) evs) !! r = Some rec' ∧
          client rec' = client rec ∧
          mouseCheckInterval rec' = mouseCheckInterval rec ∧
          gif_frames (gif rec) `prefix_of` gif_frames (gif rec') ∧
          length (gif_frames (gif rec'))
            ≤ length (gif_frames (gif rec)) + length evs.
Proof. apply run_touched, wf_run, wf_initial. Qed.

(** X5.  While every local time and every sync timestamp is in range (an
    integer of magnitude at most [2^50], or no usable number), in every
    recording the service has built the first frame carries delay 0 and
    every delay is a number that is 0 or at least [MINIMUM_FRAME_DELAY]: no
    frame is written with a delay strictly between 0 and the minimum, with a
    negative delay, with [NaN] or an infinity. *)
Theorem every_delay_throttled cs evs r rec :
  forallb in_range_event evs = true →
  recordings (run (initial_world (Blob:=Blob) cs) evs) !! r = Some rec →
  (∀ f fs, gif_frames (gif rec) = f :: fs → frame_delay f = Num 0) ∧
  Forall (λ v, ∃ d, v = Num d ∧ (d = 0 ∨ MINIMUM_FRAME_DELAY ≤ d)%Z)
         (delays rec).
Proof.
  intros Hevs Er.
  destruct (settled_run cs evs r rec Er) as (_ & _ & _ & Hf).
  destruct (in_range_run cs evs r rec Hevs Er) as [[_ Hd] _].
  done.
Qed.

(** X6.  In every recording the service has built, the local timestamp
    tells whether a frame has been written: it is [null], together with the
    session timestamp, exactly while the frame list is empty, and a number
    from the first frame on. *)
Theorem local_timestamp_tracks_frames cs evs r rec :
  recordings (run (initial_world (Blob:=Blob) cs) evs) !! r = Some rec →
  (gif_frames (gif rec) = [] ↔ lastFrameLocalTimestamp rec = Null) ∧
  (gif_frames (gif rec) = [] → lastFrameTimestamp rec = Null) ∧
  (gif_frames (gif rec) ≠ [] → ∃ t, lastFrameLocalTimestamp rec = Num t).
Proof.
  intros Er. destruct (settled_run cs evs r rec Er) as (_ & Hnil & Hnum & _).
  split; [split|split]; [by intros [_ ?]%Hnil| |by intros [? _]%Hnil|done].
  intros E. destruct (gif_frames (gif rec)) as [|f fs] eqn:Ef; [done|].
  destruct Hnum as [t Et]; [done|]. by rewrite Et in E.
Qed.

(** X15.  Whatever the timestamps, infinities and [NaN] included, in every
    recording the service has built each delay is the 0 of a frame written
    without a usable previous timestamp, or a Number that the comparison
    with the minimum did not find smaller: at least [MINIMUM_FRAME_DELAY],
    [+Infinity] or [NaN].  No frame carries a negative delay or a delay
    strictly between 0 and the minimum. *)
Theorem no_delay_below_minimum cs evs r rec :
  recordings (run (initial_world (Blob:=Blob) cs) evs) !! r = Some rec →
  Forall written_delay (delays rec).
Proof.
  intros Er. by destruct (settled_run cs evs r rec Er) as (Hd & _).
Qed.

(** X7.  [startRecording] hands out a handle and an interval that were not
    in use, creates the recording empty, with both timestamps [null], and
    leaves the other recordings, the other intervals, the other clients and
    all deferreds as they were. *)
Theorem startRecording_fresh cs evs c w' r :
  startRecording c (run (initial_world (Blob:=Blob) cs) evs) = Some (w', r) →
  recordings (run (initial_world cs) evs) !! r = None ∧
  timers (run (initial_world cs) evs) !! next_timer (run (initial_world cs) evs)
    = None ∧
  recordings w' !! r
    = Some (set_mouseCheckInterval
              (Some (next_timer (run (initial_world cs) evs))) (Recording_new c)) ∧
  (∀ r', r' ≠ r →
     recordings w' !! r' = recordings (run (initial_world cs) evs) !! r') ∧
  (∀ t, t ≠ next_timer (run (initial_world cs) evs) →
     timers w' !! t = timers (run (initial_world cs) evs) !! t) ∧
  (∀ c', c' ≠ c → clients w' !! c' = clients (run (initial_world cs) evs) !! c') ∧
  promises w' = promises (run (initial_world cs) evs).
Proof.
  pose proof (wf_run (initial_world cs) evs (wf_initial cs)) as Hw.
  generalize dependent (run (initial_world (Canvas:=Canvas) (Blob:=Blob) cs) evs).
  intros w Hw. unfold startRecording.
  destruct (clients w !! c) as [cl|]; [|done]. intros [= <- <-]. simpl.
  split; [|split; [|split; [|split; [|split; [|split]]]]].
  - destruct (recordings w !! next_recording w) as [rec|] eqn:E; [|done].
    pose proof (wf_recordings w Hw _ _ E). lia.
  - destruct (timers w !! next_timer w) as [tm|] eqn:E; [|done].
    destruct (wf_timers w Hw _ _ E) as [? _]. lia.
  - by rewrite lookup_insert_eq.
  - intros r' Hne. by rewrite lookup_insert_ne.
  - intros t Hne. by rewrite lookup_insert_ne.
  - intros c' Hne. by rewrite lookup_insert_ne.
  - done.
Qed.

(** X8.  The first sync after [startRecording] writes the display as the
    first frame of the new recording, with delay 0 whatever the timestamp,
    and records the timestamp as passed; no other recording receives that
    sync, not even one started earlier on the same client. *)
Theorem first_sync_after_start c w w' r cl ts now :
  startRecording c w = Some (w', r) →
  clients w !! c = Some cl →
  recordings (step w' (Sync c ts now)) !! r
    = Some (write_frame (flatten cl) (Num 0) ts (Num now)
              (set_mouseCheckInterval (Some (next_timer w)) (Recording_new c))) ∧
  (∀ r', r' ≠ r →
     recordings (step w' (Sync c ts now)) !! r' = recordings w' !! r').
Proof.
  unfold startRecording. intros Hs Ec. rewrite Ec in Hs.
  injection Hs as <- <-. simpl. unfold on_sync. simpl.
  rewrite lookup_insert_eq. simpl. unfold call_addFrame. simpl.
  rewrite !lookup_insert_eq. simpl. split.
  - by rewrite lookup_insert_eq.
  - intros r' Hne. by rewrite !lookup_insert_ne.
Qed.

(** X9.  [stopRecording] removes the client's sync handler whichever
    recording installed it: right after the call a sync on that client
    changes nothing at all, so a second recording of the same client gets no
    further sync frame. *)
Theorem stopRecording_silences_sync r w w' p rec ts now :
  stopRecording r w = Some (w', p) →
  recordings w !! r = Some rec →
  clients w' !! client rec = (set_onsync None <$> clients w !! client rec) ∧
  step w' (Sync (client rec) ts now) = w'.
Proof.
  unfold stopRecording. intros Hs Er. rewrite Er in Hs.
  destruct (clients w !! client rec) as [cl|] eqn:Ec; [|done].
  injection Hs as <- <-. simpl. unfold on_sync. simpl.
  by rewrite lookup_insert_eq.
Qed.

(** X10.  [stopRecording] spares everything that does not belong to the
    recording it stops: the other recordings, the deferreds that exist, the
    other clients, and the cursor polling of every other recording. *)
Theorem stopRecording_spares_others cs evs r w' p rec :
  stopRecording r (run (initial_world (Blob:=Blob) cs) evs) = Some (w', p) →
  recordings (run (initial_world cs) evs) !! r = Some rec →
  (∀ r', r' ≠ r →
     recordings w' !! r' = recordings (run (initial_world cs) evs) !! r') ∧
  (∀ p' st, promises (run (initial_world cs) evs) !! p' = Some st →
     promises w' !! p' = Some st) ∧
  (∀ c, c ≠ client rec →
     clients w' !! c = clients (run (initial_world cs) evs) !! c) ∧
  (∀ t tm, timers (run (initial_world cs) evs) !! t = Some tm →
     cm_recording tm ≠ r → timers w' !! t = Some tm).
Proof.
  pose proof (wf_run (initial_world cs) evs (wf_initial cs)) as Hw.
  pose proof (intervals_owned_run cs evs) as Ho.
  generalize dependent (run (initial_world (Canvas:=Canvas) (Blob:=Blob) cs) evs).
  intros w Hw Ho. unfold stopRecording. intros Hs Er. rewrite Er in Hs.
  destruct (clients w !! client rec) as [cl|] eqn:Ec; [|done].
  injection Hs as <- <-. simpl. split; [|split; [|split]].
  - intros r' Hne. by rewrite lookup_insert_ne.
  - intros p' st Hp. rewrite lookup_insert_ne; [done|].
    pose proof (wf_promises w Hw _ _ Hp). lia.
  - intros c Hne. by rewrite lookup_insert_ne.
  - intros t tm Et Hne. destruct (mouseCheckInterval rec) as [t0|] eqn:Em; [|done].
    simpl. rewrite lookup_delete_ne; [done|]. intros ->.
    destruct (Ho r rec t Er Em) as [_ Hown]. by apply Hne, Hown.
Qed.

(** X11.  One cursor movement costs at most one call of [addFrame]: the
    interval callback remembers the position it has seen even when the frame
    was dropped, so a second tick without a display update in between
    changes nothing. *)
Theorem tick_once_per_move t now1 now2 w :
  step (step w (Tick t now1)) (Tick t now2) = step w (Tick t now1).
Proof.
  simpl.
  destruct (timers w !! t) as [tm|] eqn:Et.
  2: { assert (on_tick t now1 w = w) as ->
         by (unfold on_tick; by rewrite Et).
       unfold on_tick. by rewrite Et. }
  destruct (clients w !! cm_guac tm) as [display|] eqn:Ec.
  2: { assert (on_tick t now1 w = w) as ->
         by (unfold on_tick; by rewrite Et, Ec).
       unfold on_tick. by rewrite Et, Ec. }
  destruct (negb (cm_x tm =? cursorX display)%Z
            || negb (cm_y tm =? cursorY display)%Z) eqn:Emove.
  2: { assert (on_tick t now1 w = w) as ->
         by (unfold on_tick; by rewrite Et, Ec, Emove).
       unfold on_tick. by rewrite Et, Ec, Emove. }
  set (w1 := call_addFrame (cm_recording tm) (cm_guac tm) Undefined now1 w).
  assert (on_tick t now1 w
          = set_timers
              (<[t := checkMouse (cm_recording tm) (cm_guac tm)
                        (cursorX display) (cursorY display)]> (timers w1)) w1)
    as -> by (unfold on_tick; by rewrite Et, Ec, Emove).
  destruct (call_addFrame_others (cm_recording tm) (cm_guac tm) Undefined now1 w)
    as (Hc & _). fold w1 in Hc.
  unfold on_tick. simpl. rewrite lookup_insert_eq. simpl. rewrite Hc, Ec.
  by rewrite !Z.eqb_refl.
Qed.

(** X12.  Recordings do not disturb each other: a sync changes no
    recording of another client, and a tick changes no recording but the one
    that owns the interval. *)
Theorem recordings_independent cs evs r rec c ts t now :
  recordings (run (initial_world (Blob:=Blob) cs) evs) !! r = Some rec →
  (client rec ≠ c →
   recordings (step (run (initial_world cs) evs) (Sync c ts now)) !! r = Some rec) ∧
  (mouseCheckInterval rec ≠ Some t →
   recordings (step (run (initial_world cs) evs) (Tick t now)) !! r = Some rec).
Proof.
  pose proof (wf_run (initial_world cs) evs (wf_initial cs)) as Hw.
  generalize dependent (run (initial_world (Canvas:=Canvas) (Blob:=Blob) cs) evs).
  intros w Hw Er. split; intros Hne; simpl.
  - unfold on_sync. destruct (clients w !! c) as [cl|] eqn:Ec; [|done].
    destruct (onsync cl) as [[r1 g]|] eqn:Eh; [|done].
    rewrite call_addFrame_lookup_ne; [done|]. intros ->.
    destruct (wf_onsync w Hw c cl r1 g Ec Eh) as (_ & rec1 & E1 & Hc).
    rewrite Er in E1. by injection E1 as <-.
  - unfold on_tick. destruct (timers w !! t) as [tm|] eqn:Et; [|done].
    destruct (clients w !! cm_guac tm) as [display|]; [|done].
    destruct (_ || _); [|done]. simpl.
    rewrite call_addFrame_lookup_ne; [done|]. intros Heq.
    destruct (wf_timers w Hw t tm Et) as (_ & rec1 & E1 & Hm).
    rewrite <- Heq, Er in E1. by injection E1 as <-.
Qed.

(** X13.  Stopping a recording right after starting it always succeeds and
    undoes what the start installed: the interval table is as before the
    start and the client has no sync handler (so the clients are as before
    when it had none); the encoder is asked to render an animation without
    frames and the returned promise is pending. *)
Theorem start_then_stop cs evs c w1 r cl :
  startRecording c (run (initial_world (Blob:=Blob) cs) evs) = Some (w1, r) →
  clients (run (initial_world cs) evs) !! c = Some cl →
  ∃ w2 p,
    stopRecording r w1 = Some (w2, p) ∧
    timers w2 = timers (run (initial_world cs) evs) ∧
    clients w2 = <[c := set_onsync None cl]> (clients (run (initial_world cs) evs)) ∧
    (onsync cl = None → clients w2 = clients (run (initial_world cs) evs)) ∧
    (∃ rec, recordings w2 !! r = Some rec ∧ gif_frames (gif rec) = [] ∧
            gif_running (gif rec) = true ∧ gif_finished (gif rec) = [p]) ∧
    promises w2 !! p = Some Pending.
Proof.
  pose proof (wf_run (initial_world cs) evs (wf_initial cs)) as Hw.
  generalize dependent (run (initial_world (Canvas:=Canvas) (Blob:=Blob) cs) evs).
  intros w Hw. unfold startRecording. intros Hs Ec. rewrite Ec in Hs.
  injection Hs as <- <-. unfold stopRecording. simpl.
  rewrite !lookup_insert_eq. simpl.
  eexists _, _. split; [reflexivity|]. simpl.
  assert (timers w !! next_timer w = None) as Hfresh.
  { destruct (timers w !! next_timer w) as [tm|] eqn:E; [|done].
    destruct (wf_timers w Hw _ _ E) as [? _]. lia. }
  split; [by apply delete_insert_id|].
  split; [by rewrite insert_insert_eq|]. split.
  - intros Hn. rewrite insert_insert_eq. apply insert_id.
    rewrite Ec. f_equal. destruct cl; simpl in *. by subst.
  - split; [|by rewrite lookup_insert_eq].
    eexists. rewrite lookup_insert_eq. split; [reflexivity|]. done.
Qed.

End ServiceBehaviour.

(** A recording with one frame, followed by five more events. *)
Lemma frames_only_grow_witness :
  let cs : gmap ClientId (Client nat) := {[0 := mkClient None 0 0 7]} in
  let evs0 : list (Event nat nat) := [Start 0; Sync 0 (Num 100) 1000] in
  let evs : list (Event nat nat) :=
    [Redraw 0 5 5 8; Tick 0 1030; Sync 0 (Num 135) 1031; Stop 0; Finished 0 42] in
  ∃ rec,
    recordings (run (initial_world cs) evs0) !! 0 = Some rec ∧
    ∃ rec', recordings (run (run (initial_world cs) evs0) evs) !! 0 = Some rec' ∧
            client rec' = client rec ∧
            mouseCheckInterval rec' = mouseCheckInterval rec ∧
            gif_frames (gif rec) `prefix_of` gif_frames (gif rec') ∧
            length (gif_frames (gif rec'))
              ≤ length (gif_frames (gif rec)) + length evs.
Proof.
  intros cs evs0 evs. eexists. split; [reflexivity|].
  eapply (frames_only_grow cs evs0 evs 0). reflexivity.
Defined.

(** A recording fed by syncs and cursor ticks. *)
Lemma every_delay_throttled_witness :
  let cs : gmap ClientId (Client nat) := {[0 := mkClient None 0 0 7]} in
  let evs : list (Event nat nat) :=
    [Start 0; Sync 0 (Num 100) 1000; Redraw 0 5 5 8; Tick 0 1030;
     Sync 0 (Num 135) 1031; Sync 0 (Num 160) 1060] in
  ∃ rec,
    recordings (run (initial_world cs) evs) !! 0 = Some rec ∧
    (∀ f fs, gif_frames (gif rec) = f :: fs → frame_delay f = Num 0) ∧
    Forall (λ v, ∃ d, v = Num d ∧ (d = 0 ∨ MINIMUM_FRAME_DELAY ≤ d)%Z)
           (delays rec).
Proof.
  intros cs evs. eexists. split; [reflexivity|].
  eapply (every_delay_throttled cs evs 0); reflexivity.
Defined.

(** A recording that receives a sync with an infinite timestamp and then
    cursor frames: the delays written are 0, [+Infinity], [NaN]. *)
Lemma no_delay_below_minimum_witness :
  let cs : gmap ClientId (Client nat) := {[0 := mkClient None 0 0 7]} in
  let evs : list (Event nat nat) :=
    [Start 0; Sync 0 (Num 100) 1000; Sync 0 (Infinity false) 1030;
     Redraw 0 5 5 8; Tick 0 1031] in
  ∃ rec,
    recordings (run (initial_world cs) evs) !! 0 = Some rec ∧
    delays rec = [Num 0; Infinity false; NaN] ∧
    Forall written_delay (delays rec).
Proof.
  intros cs evs. eexists. split; [reflexivity|]. split; [reflexivity|].
  eapply (no_delay_below_minimum cs evs 0). reflexivity.
Defined.

(** A recording whose only frame came from a cursor tick. *)
Lemma local_timestamp_tracks_frames_witness :
  let cs : gmap ClientId (Client nat) := {[0 := mkClient None 0 0 7]} in
  let evs : list (Event nat nat) := [Start 0; Redraw 0 5 5 8; Tick 0 1030] in
  ∃ rec,
    recordings (run (initial_world cs) evs) !! 0 = Some rec ∧
    (gif_frames (gif rec) = [] ↔ lastFrameLocalTimestamp rec = Null) ∧
    (gif_frames (gif rec) = [] → lastFrameTimestamp rec = Null) ∧
    (gif_frames (gif rec) ≠ [] → ∃ t, lastFrameLocalTimestamp rec = Num t).
Proof.
  intros cs evs. eexists. split; [reflexivity|].
  eapply (local_timestamp_tracks_frames cs evs 0). reflexivity.
Defined.

(** A second recording started on a client that is being recorded. *)
Lemma startRecording_fresh_witness :
  let cs : gmap ClientId (Client nat) := {[0 := mkClient None 0 0 7]} in
  let evs : list (Event nat nat) := [Start 0; Sync 0 (Num 100) 1000] in
  let w := run (initial_world cs) evs in
  ∃ w' r,
    startRecording 0 w = Some (w', r) ∧
    recordings w !! r = None ∧
    timers w !! next_timer w = None ∧
    recordings w' !! r
      = Some (set_mouseCheckInterval (Some (next_timer w)) (Recording_new 0)) ∧
    (∀ r', r' ≠ r → recordings w' !! r' = recordings w !! r') ∧
    (∀ t, t ≠ next_timer w → timers w' !! t = timers w !! t) ∧
    (∀ c', c' ≠ 0 → clients w' !! c' = clients w !! c') ∧
    promises w' = promises w.
Proof.
  intros cs evs w. eexists _, _. split; [reflexivity|].
  eapply (startRecording_fresh cs evs 0). reflexivity.
Defined.

(** The first sync of a recording started on a fresh client. *)
Lemma first_sync_after_start_witness :
  let cs : gmap ClientId (Client nat) := {[0 := mkClient None 0 0 7]} in
  let w : World nat nat := initial_world cs in
  ∃ w' r,
    startRecording 0 w = Some (w', r) ∧
    recordings (step w' (Sync 0 (Num 100) 1000)) !! r
      = Some (write_frame 7 (Num 0) (Num 100) (Num 1000)
                (set_mouseCheckInterval (Some (next_timer w)) (Recording_new 0))) ∧
    (∀ r', r' ≠ r →
       recordings (step w' (Sync 0 (Num 100) 1000)) !! r' = recordings w' !! r').
Proof.
  intros cs w. eexists _, _. split; [reflexivity|].
  eapply (first_sync_after_start 0 w _ _ (mkClient None 0 0 7)); reflexivity.
Defined.

(** Two recordings of one client; the first one is stopped. *)
Lemma stopRecording_silences_sync_witness :
  let cs : gmap ClientId (Client nat) := {[0 := mkClient None 0 0 7]} in
  let w : World nat nat :=
    run (initial_world cs) [Start 0; Sync 0 (Num 100) 1000; Start 0] in
  ∃ w' p rec,
    stopRecording 0 w = Some (w', p) ∧
    recordings w !! 0 = Some rec ∧
    clients w' !! client rec = (set_onsync None <$> clients w !! client rec) ∧
    step w' (Sync (client rec) (Num 200) 1100) = w'.
Proof.
  intros cs w. eexists _, _, _. split; [reflexivity|]. split; [reflexivity|].
  eapply (stopRecording_silences_sync 0 w); reflexivity.
Defined.

(** The same two recordings: stopping the first spares the second. *)
Lemma stopRecording_spares_others_witness :
  let cs : gmap ClientId (Client nat) := {[0 := mkClient None 0 0 7]} in
  let evs : list (Event nat nat) := [Start 0; Sync 0 (Num 100) 1000; Start 0] in
  let w := run (initial_world cs) evs in
  ∃ w' p rec,
    stopRecording 0 w = Some (w', p) ∧
    recordings w !! 0 = Some rec ∧
    (∀ r', r' ≠ 0 → recordings w' !! r' = recordings w !! r') ∧
    (∀ p' st, promises w !! p' = Some st → promises w' !! p' = Some st) ∧
    (∀ c, c ≠ client rec → clients w' !! c = clients w !! c) ∧
    (∀ t tm, timers w !! t = Some tm → cm_recording tm ≠ 0 →
       timers w' !! t = Some tm).
Proof.
  intros cs evs w. eexists _, _, _. split; [reflexivity|]. split; [reflexivity|].
  eapply (stopRecording_spares_others cs evs 0); reflexivity.
Defined.

(** Two clients, each with a recording. *)
Lemma recordings_independent_witness :
  let cs : gmap ClientId (Client nat) :=
    {[0 := mkClient None 0 0 7; 1 := mkClient None 0 0 9]} in
  let evs : list (Event nat nat) := [Start 0; Start 1; Sync 0 (Num 100) 1000] in
  let w := run (initial_world cs) evs in
  ∃ rec,
    recordings w !! 0 = Some rec ∧
    (client rec ≠ 1 →
     recordings (step w (Sync 1 (Num 300) 1010)) !! 0 = Some rec) ∧
    (mouseCheckInterval rec ≠ Some 1 →
     recordings (step w (Tick 1 1010)) !! 0 = Some rec).
Proof.
  intros cs evs w. eexists. split; [reflexivity|].
  eapply (recordings_independent cs evs 0). reflexivity.
Defined.

(** A recording started and stopped at once on an idle client. *)
Lemma start_then_stop_witness :
  let cs : gmap ClientId (Client nat) := {[0 := mkClient None 0 0 7]} in
  let evs : list (Event nat nat) := [Redraw 0 3 4 8] in
  let w := run (initial_world cs) evs in
  ∃ w1 r cl,
    startRecording 0 w = Some (w1, r) ∧
    clients w !! 0 = Some cl ∧
    ∃ w2 p,
      stopRecording r w1 = Some (w2, p) ∧
      timers w2 = timers w ∧
      clients w2 = <[0 := set_onsync None cl]> (clients w) ∧
      (onsync cl = None → clients w2 = clients w) ∧
      (∃ rec, recordings w2 !! r = Some rec ∧ gif_frames (gif rec) = [] ∧
              gif_running (gif rec) = true ∧ gif_finished (gif rec) = [p]) ∧
      promises w2 !! p = Some Pending.
Proof.
  intros cs evs w. eexists _, _, _. split; [reflexivity|]. split; [reflexivity|].
  eapply (start_then_stop cs evs 0); reflexivity.
Defined.

Section FalsyTimestamps.

Context {Canvas : Type}.
Implicit Types (r : Recording Canvas) (c : Canvas) (ts : value) (now : Z).

(** X14.  Every timestamp that fails the truthiness test is handled as an
    omitted one, [NaN] (a sync instruction whose timestamp does not parse)
    and [null] included: two calls that differ only in which falsy timestamp
    they pass leave recordings that agree on everything but the falsy value
    held by [lastFrameTimestamp], and the encoder receives the same frames
    whatever calls follow. *)
Theorem falsy_timestamps_interchangeable now c r ts1 ts2 calls :
  truthy ts1 = false → truthy ts2 = false →
  alike (addFrame now c ts1 r) (addFrame now c ts2 r) ∧
  gif (addFrames calls (addFrame now c ts1 r))
    = gif (addFrames calls (addFrame now c ts2 r)).
Proof.
  intros H1 H2.
  assert (alike (addFrame now c ts1 r) (addFrame now c ts2 r)) as Ha.
  { rewrite !addFrame_unfold. unfold computed_delay, derive_timestamp.
    rewrite H1, H2. simpl.
    destruct (truthy (lastFrameTimestamp r)).
    - apply alike_refl.
    - unfold alike. simpl. repeat split. by right. }
  split; [exact Ha|]. by destruct (alike_addFrames calls _ _ Ha) as [-> _].
Qed.

End FalsyTimestamps.

(** A sync whose timestamp did not parse, against a cursor-triggered call. *)
Lemma falsy_timestamps_interchangeable_witness :
  let r := write_frame 1 (Num 0) (Num 500) (Num 1000) (Recording_new 0) in
  let calls := [mkCall 1040 3 (Num 560); mkCall 1100 4 Undefined] in
  alike (addFrame 1030 2 NaN r) (addFrame 1030 2 Undefined r) ∧
  gif (addFrames calls (addFrame 1030 2 NaN r))
    = gif (addFrames calls (addFrame 1030 2 Undefined r)).
Proof.
  apply (falsy_timestamps_interchangeable 1030 2
           (write_frame 1 (Num 0) (Num 500) (Num 1000) (Recording_new 0))
           NaN Undefined); reflexivity.
Defined.
